(** * MeArm: joint model, register bus client and control stick

    A shallow embedding of the Python 2 sources

      - RaspberryPi/GPIODirect/MeArm.py        (module [MeArm])
      - RaspberryPi/GPIODirect/MeArmServer.py  (module [MeArmServer])
      - RaspberryPi/I2C/MeArmControl.py        (module [MeArmControl])
      - the class [Joint] of MeArmServer.py and of
        RaspberryPi/I2C/MeArmServerI2C.py      (module [JointService])

    Modelling conventions.

      - In the modules of the arm and of the services a Python number
        (int or float) is an exact rational [Q]: comparisons and stores
        are exact there, and arithmetic is without rounding.  The two
        conversions between angle and pulse width are embedded a second
        time in the module [Binary64], with the rounding of each float
        operation; what is proved of their values is proved there.
        Pulse widths, GPIO numbers and bus bytes are Python ints and
        are [Z].
      - A method that mutates [self], a joint dictionary or a process
        wide attribute is a function in the state and exception monad
        [M]: a raised exception keeps every mutation made before it.
      - External libraries (pigpio, smbus, cherrypy, time, uuid) are not
        part of the repository; each is represented by the interface the
        code relies on, stated where it is introduced. *)

From Stdlib Require Import ZArith QArith Qround Qabs Qpower Lqa Lia Bool List Ascii
  String.
From stdpp Require Import base option gmap strings.
Import ListNotations.

Local Open Scope Z_scope.

(** ** Python values shared by the three modules *)

(** The exceptions the sources raise.  Message texts that Python builds
    with [str.format] are kept as their arguments. *)
Inductive message :=
| AngleOutsideLimits (pos : Q) (name : string) (mn mx : Q)
| MaxLessThanMin (maxL mn : Q) (name : string)
| MaxGreaterThan180 (name : string)
| InvalidLimitIndicator (limInd : string)
| DeviceError (code err : string)
| NoControl
| AskOrWait (name ip : string) (wait : Q)
| NotYours.

Inductive exn :=
| ValueError (m : message)
| IOError (m : message)
| AttributeError (obj attr : string)
| KeyError (key : Z)
| ZeroDivisionError
| HTTPError (status : Z) (m : message).

Inductive result (A : Type) :=
| Ok (a : A)
| Raise (e : exn).
Arguments Ok {A} a.
Arguments Raise {A} e.

(** State and exception monad: the state after a raise is the state at
    the raise. *)
Definition M (S A : Type) : Type := S -> result A * S.

Definition ret {S A} (a : A) : M S A := fun s => (Ok a, s).
Definition raise {S A} (e : exn) : M S A := fun s => (Raise e, s).
Definition bind {S A B} (m : M S A) (k : A -> M S B) : M S B :=
  fun s => match m s with
           | (Ok a, s') => k a s'
           | (Raise e, s') => (Raise e, s')
           end.
Definition gets {S A} (f : S -> A) : M S A := fun s => (Ok (f s), s).
Definition modify {S} (f : S -> S) : M S unit := fun s => (Ok tt, f s).

(** [keeps R m]: whatever its outcome, [m] takes a state to a state
    related to it by [R]. *)
Definition keeps {S A} (R : S -> S -> Prop) (m : M S A) : Prop :=
  forall s, R s (snd (m s)).

(** [returns P m]: from a state that satisfies [P], [m] returns
    normally and [P] still holds. *)
Definition returns {S A} (P : S -> Prop) (m : M S A) : Prop :=
  forall s, P s -> (exists a, fst (m s) = Ok a) /\ P (snd (m s)).

(** [try: m except ValueError: pass]. *)
Definition except_ValueError_pass {S} (m : M S unit) : M S unit :=
  fun s => match m s with
           | (Raise (ValueError _), s') => (Ok tt, s')
           | r => r
           end.

Declare Scope py_scope.
Delimit Scope py_scope with py.
Notation "x <- m ;; k" := (bind m (fun x => k))
  (at level 100, m at next level, right associativity) : py_scope.
Notation "m ;;; k" := (bind m (fun _ => k))
  (at level 100, right associativity) : py_scope.

(** [int(x)] on a float: truncation toward zero. *)
Definition py_int (x : Q) : Z := Z.quot (Qnum x) (Z.pos (Qden x)).

(** [round(x, 1)] of Python 2: to one decimal, halves away from zero. *)
Definition py_round1 (x : Q) : Q :=
  if Qle_bool 0 x
  then Qmake (Qfloor (x * 10 + (1 # 2))) 10
  else Qopp (Qmake (Qfloor (Qopp x * 10 + (1 # 2))) 10).

(** Python 2 orders [None] below every number. *)
Definition py_lt (x : option Q) (y : Q) : bool :=
  match x with
  | None => true
  | Some v => negb (Qle_bool y v)
  end.
Definition py_gt (x : option Q) (y : Q) : bool :=
  match x with
  | None => false
  | Some v => negb (Qle_bool v y)
  end.

(** Comparisons of two numbers. *)
Definition Qlt_bool (x y : Q) : bool := negb (Qle_bool y x).

(** ** Python floats: the two conversions of MeArm.py in binary64 *)

(** The module [MeArm] below computes with exact rationals.  Where the
    last bit of a float counts, that is in [angleToPulse] and
    [pulseToAngle], the sources are embedded a second time with IEEE 754
    binary64 arithmetic, which is what a Python float is. *)
Module Binary64.

Local Open Scope Q_scope.

(** A float: a finite number, given by its exact value, an infinity or a
    NaN.  Zero carries no sign: Python raises on a division by either
    zero, and nothing else below tells [-0.0] from [0.0]. *)
Inductive float :=
| Finite (q : Q)
| Infinity (negative : bool)
| NaN.

Definition pow2 (z : Z) : Q := Qpower 2 z.

(** The integer part of the binary logarithm of a positive number. *)
Definition ilog2 (x : Q) : Z :=
  let l := (Z.log2 (Qnum x) - Z.log2 (Z.pos (Qden x)))%Z in
  if Qle_bool (pow2 l) x then l else (l - 1)%Z.

(** The exponent of the last place of the floats around [x]: 53
    significant bits, and no exponent below that of the subnormals. *)
Definition ulp_exp (x : Q) : Z := Z.max (ilog2 (Qabs x) - 52) (-1074).

(** The nearest integer, a tie going to the even one. *)
Definition rne (y : Q) : Z :=
  let f := Qfloor y in
  match Qcompare (y - inject_Z f) (1 # 2) with
  | Lt => f
  | Gt => (f + 1)%Z
  | Eq => if Z.even f then f else (f + 1)%Z
  end.

(** Rounding to nearest, ties to even, with an unbounded exponent
    range upwards. *)
Definition rnd (x : Q) : Q :=
  let u := pow2 (ulp_exp x) in inject_Z (rne (x / u)) * u.

Definition negative (q : Q) : bool := negb (Qle_bool 0 q).

(** The float of a real number: a rounded value of [2^1024] or more is
    an overflow. *)
Definition round64 (x : Q) : float :=
  let r := rnd x in
  if Qle_bool (pow2 1024) (Qabs r) then Infinity (negative r) else Finite r.

Definition fopp (x : float) : float :=
  match x with
  | Finite a => Finite (- a)
  | Infinity s => Infinity (negb s)
  | NaN => NaN
  end.

Definition fadd (x y : float) : float :=
  match x, y with
  | NaN, _ | _, NaN => NaN
  | Finite a, Finite b => round64 (a + b)
  | Infinity s, Finite _ | Finite _, Infinity s => Infinity s
  | Infinity s, Infinity t => if Bool.eqb s t then Infinity s else NaN
  end.

Definition fsub (x y : float) : float := fadd x (fopp y).

Definition fmul (x y : float) : float :=
  match x, y with
  | NaN, _ | _, NaN => NaN
  | Finite a, Finite b => round64 (a * b)
  | Infinity s, Finite b | Finite b, Infinity s =>
      if Qeq_bool b 0 then NaN else Infinity (xorb s (negative b))
  | Infinity s, Infinity t => Infinity (xorb s t)
  end.

(** The quotient by a float that is not zero. *)
Definition fdiv (x y : float) : float :=
  match x, y with
  | NaN, _ | _, NaN => NaN
  | Finite a, Finite b => round64 (a / b)
  | Finite _, Infinity _ => Finite 0
  | Infinity s, Finite b => Infinity (xorb s (negative b))
  | Infinity _, Infinity _ => NaN
  end.

Definition is_zero (x : float) : bool :=
  match x with
  | Finite b => Qeq_bool b 0
  | _ => false
  end.

(** What the arithmetic of Python raises. *)
Inductive error :=
| OverflowError
| ValueError
| ZeroDivisionError.

Inductive outcome (A : Type) :=
| Returns (a : A)
| Raises (e : error).
Arguments Returns {A} a.
Arguments Raises {A} e.

Definition and_then {A B} (m : outcome A) (k : A -> outcome B) : outcome B :=
  match m with
  | Returns a => k a
  | Raises e => Raises e
  end.

Declare Scope b64_scope.
Notation "x <- m ;; k" := (and_then m (fun x => k))
  (at level 100, m at next level, right associativity) : b64_scope.
Local Open Scope b64_scope.

(** A Python number: an [int] (or [long]) of any size, or a float. *)
Inductive num :=
| Int (z : Z)
| Float (f : float).

(** The real number a Python number stands for. *)
Definition real (a : num) : option Q :=
  match a with
  | Int z => Some (inject_Z z)
  | Float (Finite q) => Some q
  | Float _ => None
  end.

(** The conversion of an operand to float: an integer too large for a
    float raises OverflowError. *)
Definition to_float (n : num) : outcome float :=
  match n with
  | Float f => Returns f
  | Int z => match round64 (inject_Z z) with
             | Infinity _ => Raises OverflowError
             | f => Returns f
             end
  end.

(** Two integers are combined exactly; otherwise both operands become
    floats. *)
Definition coerce (x y : num) (k : float -> float -> outcome float)
  : outcome num :=
  a <- to_float x ;; b <- to_float y ;; f <- k a b ;; Returns (Float f).

Definition add (x y : num) : outcome num :=
  match x, y with
  | Int a, Int b => Returns (Int (a + b))
  | _, _ => coerce x y (fun a b => Returns (fadd a b))
  end.

Definition sub (x y : num) : outcome num :=
  match x, y with
  | Int a, Int b => Returns (Int (a - b))
  | _, _ => coerce x y (fun a b => Returns (fsub a b))
  end.

Definition mul (x y : num) : outcome num :=
  match x, y with
  | Int a, Int b => Returns (Int (a * b))
  | _, _ => coerce x y (fun a b => Returns (fmul a b))
  end.

(** [x / y] of Python 2: the floor of the quotient of two integers. *)
Definition div (x y : num) : outcome num :=
  match x, y with
  | Int a, Int b =>
      if (b =? 0)%Z then Raises ZeroDivisionError else Returns (Int (a / b))
  | _, _ =>
      coerce x y (fun a b =>
        if is_zero b then Raises ZeroDivisionError else Returns (fdiv a b))
  end.

(** [int(x)]. *)
Definition int (n : num) : outcome Z :=
  match n with
  | Int z => Returns z
  | Float (Finite q) => Returns (py_int q)
  | Float (Infinity _) => Raises OverflowError
  | Float NaN => Raises ValueError
  end.

(** [round(x, 1)] of Python 2: the decimal with one digit nearest to the
    exact value of [x], a half going away from zero, and then the float
    nearest to that decimal. *)
Definition round1 (n : num) : outcome num :=
  x <- to_float n ;;
  match x with
  | Finite q => match round64 (py_round1 q) with
                | Infinity _ => Raises OverflowError
                | f => Returns (Float f)
                end
  | _ => Returns (Float x)
  end.

(** The calibration attributes of an instance, and their assignment in
    [__init__]: [self.pwPdeg = (pwMax - pwMin) / 180.0]. *)
Record calibration := {
  pwMin : num;
  pwMax : num;
  pwPdeg : num
}.

Definition calibrate (pwMin pwMax : num) : outcome calibration :=
  d <- sub pwMax pwMin ;;
  k <- div d (Float (Finite 180)) ;;
  Returns {| pwMin := pwMin; pwMax := pwMax; pwPdeg := k |}.

(** [int((a * self.pwPdeg) + self.pwMin)]. *)
Definition angleToPulse (self : calibration) (a : num) : outcome Z :=
  x <- mul a (pwPdeg self) ;;
  y <- add x (pwMin self) ;;
  int y.

(** The literal [0.05]. *)
Definition pm : num := Float (round64 (5 # 100)).

(** [pulseToAngle] on a pulse width, which is an [int]. *)
Definition pulseToAngle (self : calibration) (p : Z) : outcome num :=
  d <- sub (Int p) (pwMin self) ;;
  calcDeg <- div d (pwPdeg self) ;;
  x <- add calcDeg pm ;;
  round1 x.

End Binary64.

(** ** MeArm.py *)
Module MeArm.

(** pigpio is an external library.  It is represented as the servo
    channel the code relies on: [set_servo_pulsewidth] stores a pulse
    width for a GPIO, [get_servo_pulsewidth] returns the stored width,
    0 for a servo that is off.  [writes] records the calls of
    [set_servo_pulsewidth], oldest first. *)
Record pigpio := {
  pulsewidth : gmap Z Z;
  writes : list (Z * Z)
}.

Definition set_servo_pulsewidth (gpio pw : Z) (io : pigpio) : pigpio :=
  {| pulsewidth := <[gpio := pw]> (pulsewidth io);
     writes := writes io ++ [(gpio, pw)] |}.

Definition get_servo_pulsewidth (gpio : Z) (io : pigpio) : Z :=
  default 0 (pulsewidth io !! gpio).

(** A joint definition as passed to the constructor, and a joint
    dictionary of an instance (the constructor adds ['name']).  The
    key ['inv'] is optional. *)
Record JointDef := {
  d_gpio : Z; d_min : Q; d_max : Q; d_home : Q; d_inv : option bool
}.

Record Joint := {
  gpio : Z; jmin : Q; jmax : Q; home_angle : Q; inv : option bool;
  name : string
}.

Definition with_name (d : JointDef) (n : string) : Joint :=
  {| gpio := d_gpio d; jmin := d_min d; jmax := d_max d;
     home_angle := d_home d; inv := d_inv d; name := n |}.

Definition set_jmin (v : Q) (j : Joint) : Joint :=
  {| gpio := gpio j; jmin := v; jmax := jmax j;
     home_angle := home_angle j; inv := inv j; name := name j |}.
Definition set_jmax (v : Q) (j : Joint) : Joint :=
  {| gpio := gpio j; jmin := jmin j; jmax := v;
     home_angle := home_angle j; inv := inv j; name := name j |}.

(** The instance: four joint dictionaries, the calibration and the
    pigpio connection. *)
Record arm := {
  base : Joint; shoulder : Joint; wrist : Joint; grip : Joint;
  pwMin : Q; pwMax : Q; pwPdeg : Q;
  io : pigpio
}.

(** The [joint] argument of the methods is one of the instance's own
    dictionaries, passed by reference. *)
Inductive jref := Base | Shoulder | Wrist | Grip.

Definition joint (r : jref) (self : arm) : Joint :=
  match r with
  | Base => base self | Shoulder => shoulder self
  | Wrist => wrist self | Grip => grip self
  end.

Definition update_joint (r : jref) (f : Joint -> Joint) (self : arm) : arm :=
  {| base := if r is Base then f (base self) else base self;
     shoulder := if r is Shoulder then f (shoulder self) else shoulder self;
     wrist := if r is Wrist then f (wrist self) else wrist self;
     grip := if r is Grip then f (grip self) else grip self;
     pwMin := pwMin self; pwMax := pwMax self; pwPdeg := pwPdeg self;
     io := io self |}.

Definition update_io (f : pigpio -> pigpio) (self : arm) : arm :=
  {| base := base self; shoulder := shoulder self; wrist := wrist self;
     grip := grip self;
     pwMin := pwMin self; pwMax := pwMax self; pwPdeg := pwPdeg self;
     io := f (io self) |}.

Local Open Scope py_scope.

(** [angleToPulse]: [int((a * self.pwPdeg) + self.pwMin)], the product
    and the sum without rounding ([Binary64.angleToPulse] has them
    rounded). *)
Definition angleToPulse (self : arm) (a : Q) : Z :=
  py_int ((a * pwPdeg self) + pwMin self)%Q.

(** The precision modifier [pm] of [pulseToAngle]. *)
Definition pm : Q := 5 # 100.

(** [pulseToAngle]: [round((p - self.pwMin) / self.pwPdeg + pm, 1)];
    the division raises when [pwPdeg] is zero.  The quotient, the sum
    and the decimal are without rounding ([Binary64.pulseToAngle] has
    them rounded). *)
Definition pulseToAngle (self : arm) (p : Z) : result Q :=
  if Qeq_bool (pwPdeg self) 0 then Raise ZeroDivisionError
  else
    let calcDeg := ((inject_Z p - pwMin self) / pwPdeg self)%Q in
    Ok (py_round1 (calcDeg + pm)%Q).

(** [getPos(joint, deg=True)]: [None] when the servo is off. *)
Definition getPos (j : jref) (deg : bool) : M arm (option Q) :=
  pw <- gets (fun self =>
                get_servo_pulsewidth (gpio (joint j self)) (io self));;
  if pw =? 0 then ret None
  else if deg
       then (a <- (fun self => (pulseToAngle self pw, self));; ret (Some a))
       else ret (Some (inject_Z pw)).

(** The angle handed to [angleToPulse] by [goto]:
    [joint['max']-(pos-joint['min']) if joint.get('inv', False) else pos]. *)
Definition actuation_angle (jt : Joint) (pos : Q) : Q :=
  if default false (inv jt) then (jmax jt - (pos - jmin jt))%Q else pos.

(** The test of [goto]: [joint['min'] <= pos <= joint['max']]. *)
Definition in_limits (jt : Joint) (pos : Q) : bool :=
  Qle_bool (jmin jt) pos && Qle_bool pos (jmax jt).

(** [goto(joint, pos)]. *)
Definition goto (j : jref) (pos : Q) : M arm (option Q) :=
  jt <- gets (joint j);;
  (if in_limits jt pos
   then
     let a := actuation_angle jt pos in
     pw <- gets (fun self => angleToPulse self a);;
     modify (update_io (set_servo_pulsewidth (gpio jt) pw))
   else
     raise (ValueError
              (AngleOutsideLimits pos (name jt) (jmin jt) (jmax jt))));;;
  getPos j true.

(** The instance once [goto] has driven joint [j] to [pos], and the
    pulse width currently programmed for a joint. *)
Definition drive (j : jref) (pos : Q) (self : arm) : arm :=
  update_io
    (set_servo_pulsewidth (gpio (joint j self))
       (angleToPulse self (actuation_angle (joint j self) pos)))
    self.

Definition programmed (j : jref) (self : arm) : Z :=
  get_servo_pulsewidth (gpio (joint j self)) (io self).

(** [home(joint)]. *)
Definition home (j : jref) : M arm unit :=
  jt <- gets (joint j);;
  goto j (home_angle jt);;;
  ret tt.

(** A [for] loop over a list. *)
Fixpoint for_each {S A} (l : list A) (body : A -> M S unit) : M S unit :=
  match l with
  | [] => ret tt
  | x :: l' => body x;;; for_each l' body
  end.

(** [homeAll()]. *)
Definition homeAll : M arm unit :=
  for_each [Base; Shoulder; Wrist; Grip] home.

(** [setLimit(joint, minL=None, maxL=None)].  In the two [raise]
    statements of the minimum branch [.format] is applied to the
    exception object, not to the message: evaluating the operand of
    [raise] fails with an AttributeError. *)
Definition setLimit (j : jref) (minL maxL : option Q) : M arm unit :=
  (match minL with
   | Some mn =>
       jt <- gets (joint j);;
       let mx := match maxL with Some m => m | None => jmax jt end in
       if Qlt_bool mx mn
       then raise (AttributeError "ValueError" "format")
       else if Qlt_bool mn 0
       then raise (AttributeError "ValueError" "format")
       else
         modify (update_joint j (set_jmin mn));;;
         p <- getPos j true;;
         if py_lt p mn then (goto j mn;;; ret tt) else ret tt
   | None => ret tt
   end);;;
  (match maxL with
   | Some mx =>
       jt <- gets (joint j);;
       if Qlt_bool mx (jmin jt)
       then raise (ValueError (MaxLessThanMin mx (jmin jt) (name jt)))
       else if Qlt_bool 180 mx
       then raise (ValueError (MaxGreaterThan180 (name jt)))
       else
         modify (update_joint j (set_jmax mx));;;
         p <- getPos j true;;
         if py_gt p mx then (goto j mx;;; ret tt) else ret tt
   | None => ret tt
   end).

(** [__init__(base, shoulder, wrist, grip, pwMin=550, pwMax=2500)]:
    the state is the new instance, [conn] the connection returned by
    [pigpio.pi()].  The four definitions are distinct dictionaries. *)
Definition pwMin_default : Q := 550.
Definition pwMax_default : Q := 2500.

Definition new_arm (b s w g : JointDef) (pwMin pwMax : Q) (conn : pigpio)
  : arm :=
  {| base := with_name b "base"; shoulder := with_name s "shoulder";
     wrist := with_name w "wrist"; grip := with_name g "grip";
     pwMin := pwMin; pwMax := pwMax;
     pwPdeg := ((pwMax - pwMin) / 180)%Q;
     io := conn |}.

Definition __init__ (b s w g : JointDef) (pwMin pwMax : Q)
  (conn : pigpio) : result unit * arm :=
  homeAll (new_arm b s w g pwMin pwMax conn).

(** [armDef], the defaults of the module. *)
Definition armDef_base : JointDef :=
  {| d_gpio := 4; d_min := 0; d_max := 180; d_home := 90;
     d_inv := Some true |}.
Definition armDef_shoulder : JointDef :=
  {| d_gpio := 17; d_min := 50; d_max := 140; d_home := 90;
     d_inv := None |}.
Definition armDef_wrist : JointDef :=
  {| d_gpio := 27; d_min := 50; d_max := 140; d_home := 90;
     d_inv := None |}.
Definition armDef_grip : JointDef :=
  {| d_gpio := 22; d_min := 80; d_max := 100; d_home := 90;
     d_inv := None |}.

(** A connection on which no servo has been driven, and the instance
    built from [armDef] before and after its constructor has run. *)
Definition idle_conn : pigpio := {| pulsewidth := ∅; writes := [] |}.

Definition default_arm : arm :=
  new_arm armDef_base armDef_shoulder armDef_wrist armDef_grip
    pwMin_default pwMax_default idle_conn.

Definition homed_arm : arm :=
  snd (__init__ armDef_base armDef_shoulder armDef_wrist armDef_grip
         pwMin_default pwMax_default idle_conn).

(** The default arm with the shoulder inverted, and with the shoulder
    limited to 40..140 and driven to 50 degrees. *)
Definition inverted_shoulder_arm : arm :=
  new_arm armDef_base
    {| d_gpio := 17; d_min := 50; d_max := 140; d_home := 90;
       d_inv := Some true |}
    armDef_wrist armDef_grip pwMin_default pwMax_default idle_conn.

Definition low_shoulder_arm : arm :=
  snd (goto Shoulder 50
         (new_arm armDef_base
            {| d_gpio := 17; d_min := 40; d_max := 140; d_home := 90;
               d_inv := None |}
            armDef_wrist armDef_grip pwMin_default pwMax_default
            idle_conn)).

(** What homing commands for joint [j]: its GPIO and the pulse width of
    its home angle. *)
Definition home_command (self : arm) (j : jref) : Z * Z :=
  (gpio (joint j self),
   angleToPulse self
     (actuation_angle (joint j self) (home_angle (joint j self)))).

(** The joints in the order of the loops of the class. *)
Definition joints : list jref := [Base; Shoulder; Wrist; Grip].

(** One joint of one pass of the sweep of [qtest]:
    [try: self.goto(j, a); print ...format(self.getPos(j)) except
    ValueError: pass].  Printing leaves the instance alone; formatting
    [None] raises a ValueError, which the handler swallows like the one
    of [goto], so both ways the statement ends normally. *)
Definition qtest_try (a : Q) (j : jref) : M arm unit :=
  except_ValueError_pass (goto j a;;; getPos j true;;; ret tt).

(** The [while a>=0] loop of [qtest], from the values [a] and [step]
    of its variables; [fuel] bounds the number of passes, and the result
    tells whether the loop ended within it. *)
Fixpoint qtest_sweep (fuel : nat) (a step : Q) : M arm bool :=
  match fuel with
  | O => ret false
  | S fuel' =>
      if Qle_bool 0 a
      then
        for_each joints (qtest_try a);;;
        if Qle_bool 180 (a + step)%Q
        then qtest_sweep fuel' 180 (- (1 # 2))%Q
        else qtest_sweep fuel' (a + step)%Q step
      else ret true
  end.

(** [qtest()]; [time.sleep] and [print] leave the instance alone. *)
Definition qtest (fuel : nat) : M arm bool :=
  for_each joints
    (fun j => jt <- gets (joint j);; goto j (jmin jt);;; ret tt);;;
  ended <- qtest_sweep fuel (1 # 2)%Q (1 # 2)%Q;;
  if ended : bool
  then
    for_each joints
      (fun j =>
         jt <- gets (joint j);;
         goto j (jmax jt);;;
         jt' <- gets (joint j);;
         goto j (jmin jt');;;
         ret tt);;;
    homeAll;;;
    ret true
  else ret false.

(** The angles the loop of [qtest] tries within [fuel] passes, and
    whether it has ended by then. *)
Fixpoint sweep_angles (fuel : nat) (a step : Q) : list Q :=
  match fuel with
  | O => []
  | S fuel' =>
      if Qle_bool 0 a
      then a :: (if Qle_bool 180 (a + step)%Q
                 then sweep_angles fuel' 180 (- (1 # 2))%Q
                 else sweep_angles fuel' (a + step)%Q step)
      else []
  end.

Fixpoint sweep_ended (fuel : nat) (a step : Q) : bool :=
  match fuel with
  | O => false
  | S fuel' =>
      if Qle_bool 0 a
      then (if Qle_bool 180 (a + step)%Q
            then sweep_ended fuel' 180 (- (1 # 2))%Q
            else sweep_ended fuel' (a + step)%Q step)
      else true
  end.

(** The angles of the passes of the loop of [qtest], in their order:
    0.5 up to 180 and back down to 0, in steps of 0.5. *)
Definition sweep_schedule : list Q :=
  map (fun k => Z.of_nat k # 2) (seq 1 360 ++ rev (seq 0 360)).

(** The limits a joint is meant to have. *)
Definition limits_ok (jt : Joint) : Prop :=
  (0 <= jmin jt /\ jmin jt <= jmax jt /\ jmax jt <= 180)%Q.

(** The default arm with the home angle of the wrist below its
    minimum. *)
Definition low_wrist_home_arm : arm :=
  new_arm armDef_base armDef_shoulder
    {| d_gpio := 27; d_min := 50; d_max := 140; d_home := 30;
       d_inv := None |}
    armDef_grip pwMin_default pwMax_default idle_conn.

(** An instance on which [qtest] meets no error: a calibration with
    [pwMax] different from [pwMin], and for every joint a minimum not
    above the maximum and a home angle within them. *)
Definition well_configured (self : arm) : Prop :=
  Qeq_bool (pwPdeg self) 0 = false
  /\ forall j,
       (jmin (joint j self) <= jmax (joint j self))%Q
       /\ in_limits (joint j self) (home_angle (joint j self)) = true.

(** [same_setup self s]: the joint dictionaries and the calibration of
    [s] are those of [self]. *)
Definition same_setup (self s : arm) : Prop :=
  (forall j, joint j s = joint j self)
  /\ pwMin s = pwMin self /\ pwMax s = pwMax self
  /\ pwPdeg s = pwPdeg self.

(** A write that positions some joint of [self] within its limits. *)
Definition within_limits_write (self : arm) (w : Z * Z) : Prop :=
  exists j pos,
    in_limits (joint j self) pos = true
    /\ w = (gpio (joint j self),
            angleToPulse self (actuation_angle (joint j self) pos)).

(** [moves_within_limits self s]: [s] has the setup of [self], and what
    was written between [self] and [s] are writes within limits. *)
Definition moves_within_limits (self s : arm) : Prop :=
  same_setup self s
  /\ exists ws, writes (io s) = writes (io self) ++ ws
               /\ Forall (within_limits_write self) ws.

(** [only_limits_of j self s]: [s] differs from [self] at most in the
    servo channel and in the two limits of joint [j]. *)
Definition only_limits_of (j : jref) (self s : arm) : Prop :=
  (forall j', j' <> j -> joint j' s = joint j' self)
  /\ gpio (joint j s) = gpio (joint j self)
  /\ home_angle (joint j s) = home_angle (joint j self)
  /\ inv (joint j s) = inv (joint j self)
  /\ name (joint j s) = name (joint j self)
  /\ pwMin s = pwMin self /\ pwMax s = pwMax self
  /\ pwPdeg s = pwPdeg self.

End MeArm.

(** ** MeArmControl.py *)
Module MeArmControl.

Local Open Scope py_scope.

(** smbus and [time.sleep] are external.  The bus is represented by the
    operations issued on it, oldest first, and by the bytes the remote
    device answers: the [n]-th [read_byte] of the connection returns
    [remote n]. *)
Inductive busop :=
| write_byte (addr val : Z)
| write_byte_data (addr cmd val : Z)
| write_i2c_block_data (addr cmd : Z) (vals : list Z)
| read_byte (addr : Z)
| sleep (ms : Z).

Record MeArmI2C := {
  i2cAddr : Z;
  trace : list busop;
  remote : nat -> Z;
  nread : nat
}.

Definition issue (op : Z -> busop) : M MeArmI2C unit :=
  modify (fun self =>
            {| i2cAddr := i2cAddr self;
               trace := trace self ++ [op (i2cAddr self)];
               remote := remote self; nread := nread self |}).

Definition bus_read_byte : M MeArmI2C Z :=
  fun self =>
    (Ok (remote self (nread self)),
     {| i2cAddr := i2cAddr self;
        trace := trace self ++ [read_byte (i2cAddr self)];
        remote := remote self; nread := S (nread self) |}).

(** Register addresses and sub-value indicators. *)
Definition ord (c : ascii) : Z := Z.of_nat (nat_of_ascii c).
Definition RegErr : Z := ord "e".
Definition RegConfig : Z := ord "c".
Definition RegBase : Z := ord "b".
Definition RegShoulder : Z := ord "s".
Definition RegWrist : Z := ord "w".
Definition RegGrip : Z := ord "g".
Definition RegSubMin : Z := 193.
Definition RegSubMax : Z := 194.

(** [OpErrors]: a dictionary keyed by the flag values. *)
Record OpError := { c : string; e : string }.

Definition OpErrors : gmap Z OpError :=
  list_to_map
    [ (Z.shiftl 1 0,
       {| c := "eDLen"; e := "Data length - too much or too little data" |});
      (Z.shiftl 1 1, {| c := "eNoReg"; e := "Invalid register error" |});
      (Z.shiftl 1 2,
       {| c := "ePLimit";
          e := "Position to set is out of poistion limits" |});
      (Z.shiftl 1 3,
       {| c := "eSVLimit"; e := "Sub value is out of min/max limits" |});
      (Z.shiftl 1 4,
       {| c := "eSVRange"; e := "Sub value is out of allowed range" |});
      (Z.shiftl 1 5,
       {| c := "eInvSubVal"; e := "Invalid sub-value indicator" |}) ].

(** [_settleDelay()]: [time.sleep(0.1)]. *)
Definition _settleDelay : M MeArmI2C unit :=
  modify (fun self =>
            {| i2cAddr := i2cAddr self;
               trace := trace self ++ [sleep 100];
               remote := remote self; nread := nread self |}).

(** [getError()]: [self.OpErrors[val]] raises KeyError for a value that
    is not a key. *)
Definition getError : M MeArmI2C unit :=
  issue (fun a => write_byte a RegErr);;;
  _settleDelay;;;
  val <- bus_read_byte;;
  if val =? 0 then ret tt
  else match OpErrors !! val with
       | Some err => raise (IOError (DeviceError (c err) (e err)))
       | None => raise (KeyError val)
       end.

Definition getRegister (reg : Z) : M MeArmI2C Z :=
  issue (fun a => write_byte a reg);;;
  _settleDelay;;;
  val <- bus_read_byte;;
  getError;;;
  ret val.

Definition getRegisterSubVal (reg subInd : Z) : M MeArmI2C Z :=
  issue (fun a => write_byte_data a reg subInd);;;
  _settleDelay;;;
  val <- bus_read_byte;;
  getError;;;
  ret val.

Definition setRegister (reg val : Z) : M MeArmI2C unit :=
  issue (fun a => write_byte_data a reg val);;;
  _settleDelay;;;
  getError.

Definition setRegisterSubValue (reg subInd val : Z) : M MeArmI2C unit :=
  issue (fun a => write_i2c_block_data a reg [subInd; val]);;;
  _settleDelay;;;
  getError.

(** [joint(name, pos=None)]. *)
Definition joint (name : Z) (pos : option Z) : M MeArmI2C Z :=
  match pos with
  | None => getRegister name
  | Some p => setRegister name p;;; ret p
  end.

(** [jointLimit(name, limInd, lim=None)]. *)
Definition jointLimit (name : Z) (limInd : string) (lim : option Z)
  : M MeArmI2C Z :=
  subInd <- (if String.eqb limInd "min" then ret RegSubMin
             else if String.eqb limInd "max" then ret RegSubMax
             else raise (ValueError (InvalidLimitIndicator limInd)));;
  match lim with
  | None => getRegisterSubVal name subInd
  | Some l => setRegisterSubValue name subInd l;;; ret l
  end.

(** The four bus transactions. *)
Inductive transaction :=
| GetRegister (reg : Z)
| GetRegisterSubVal (reg subInd : Z)
| SetRegister (reg val : Z)
| SetRegisterSubValue (reg subInd val : Z).

Definition run (t : transaction) : M MeArmI2C (option Z) :=
  match t with
  | GetRegister reg => v <- getRegister reg;; ret (Some v)
  | GetRegisterSubVal reg subInd =>
      v <- getRegisterSubVal reg subInd;; ret (Some v)
  | SetRegister reg val => setRegister reg val;;; ret None
  | SetRegisterSubValue reg subInd val =>
      setRegisterSubValue reg subInd val;;; ret None
  end.

(** A connection to a scripted remote: it answers the bytes of
    [script] in turn, then zeros. *)
Definition scripted (addr : Z) (script : list Z) : MeArmI2C :=
  {| i2cAddr := addr; trace := [];
     remote := fun n => nth n script 0; nread := 0 |}.

(** The operations of a transaction before its error check, the
    error check itself, and the byte the error check reads. *)
Definition error_check (self : MeArmI2C) : list busop :=
  [write_byte (i2cAddr self) RegErr; sleep 100; read_byte (i2cAddr self)].

Definition transfer (t : transaction) (self : MeArmI2C) : list busop :=
  match t with
  | GetRegister reg =>
      [write_byte (i2cAddr self) reg; sleep 100; read_byte (i2cAddr self)]
  | GetRegisterSubVal reg subInd =>
      [write_byte_data (i2cAddr self) reg subInd; sleep 100;
       read_byte (i2cAddr self)]
  | SetRegister reg val =>
      [write_byte_data (i2cAddr self) reg val; sleep 100]
  | SetRegisterSubValue reg subInd val =>
      [write_i2c_block_data (i2cAddr self) reg [subInd; val]; sleep 100]
  end.

Definition transfer_reads (t : transaction) : nat :=
  match t with
  | GetRegister _ | GetRegisterSubVal _ _ => 1
  | SetRegister _ _ | SetRegisterSubValue _ _ _ => 0
  end.

Definition error_byte (t : transaction) (self : MeArmI2C) : Z :=
  remote self (transfer_reads t + nread self).

(** What [getError] does with the byte it has read. *)
Definition error_outcome (val : Z) : result unit :=
  if val =? 0 then Ok tt
  else match OpErrors !! val with
       | Some err => Raise (IOError (DeviceError (c err) (e err)))
       | None => Raise (KeyError val)
       end.

(** The connection after [ops] have been issued, [reads] of them reads. *)
Definition after (ops : list busop) (reads : nat) (self : MeArmI2C)
  : MeArmI2C :=
  {| i2cAddr := i2cAddr self; trace := trace self ++ ops;
     remote := remote self; nread := (reads + nread self)%nat |}.

(** The decoding rule of the specification, for comparison with
    [getError]: the table entry of the lowest flag set in [val]. *)
Definition spec_lowest_flag (val : Z) : option OpError :=
  OpErrors !! Z.land val (- val).

End MeArmControl.

(** ** MeArmServer.py: the control stick *)
Module MeArmServer.

Local Open Scope py_scope.

(** The maximum inactive period for the bearer of the control stick. *)
Definition CONTROL_STICK_TIMEOUT : Q := 60.

(** The dictionary stored in [cherrypy.controlStick]. *)
Record Stick := {
  sid : string;
  tmout : Q;
  name : string;
  ip : string
}.

(** cherrypy, time and uuid are external.  What one request sees of
    them: the process wide [cherrypy.controlStick], the ['id'] entry of
    the caller's session, the attributes [request.inControl],
    [request.remote.ip] and [response.status], the reading of
    [time.time()] (one instant for the whole request) and the string
    [str(uuid.uuid1())] would return. *)
Record cherrypy := {
  controlStick : option Stick;
  session_id : option string;
  inControl : bool;
  remote_ip : string;
  status : string;
  clock : Q;
  uuid1 : string
}.

Definition set_controlStick (v : option Stick) (cp : cherrypy) : cherrypy :=
  {| controlStick := v; session_id := session_id cp;
     inControl := inControl cp; remote_ip := remote_ip cp;
     status := status cp; clock := clock cp; uuid1 := uuid1 cp |}.
Definition set_session_id (v : option string) (cp : cherrypy) : cherrypy :=
  {| controlStick := controlStick cp; session_id := v;
     inControl := inControl cp; remote_ip := remote_ip cp;
     status := status cp; clock := clock cp; uuid1 := uuid1 cp |}.
Definition set_inControl (v : bool) (cp : cherrypy) : cherrypy :=
  {| controlStick := controlStick cp; session_id := session_id cp;
     inControl := v; remote_ip := remote_ip cp;
     status := status cp; clock := clock cp; uuid1 := uuid1 cp |}.
Definition set_status (v : string) (cp : cherrypy) : cherrypy :=
  {| controlStick := controlStick cp; session_id := session_id cp;
     inControl := inControl cp; remote_ip := remote_ip cp;
     status := v; clock := clock cp; uuid1 := uuid1 cp |}.

Definition set_tmout (v : Q) (st : Stick) : Stick :=
  {| sid := sid st; tmout := v; name := name st; ip := ip st |}.

(** [str.strip()]: whitespace removed at both ends. *)
Definition is_space (ch : ascii) : bool :=
  match nat_of_ascii ch with
  | 9%nat | 10%nat | 11%nat | 12%nat | 13%nat | 32%nat => true
  | _ => false
  end.

Fixpoint lstrip (l : list ascii) : list ascii :=
  match l with
  | ch :: l' => if is_space ch then lstrip l' else l
  | [] => []
  end.

Definition strip (s : string) : string :=
  string_of_list_ascii
    (rev (lstrip (rev (lstrip (list_ascii_of_string s))))).

(** [checkControlExpiration()]. *)
Definition checkControlExpiration : M cherrypy unit :=
  cs <- gets controlStick;;
  match cs with
  | None => ret tt
  | Some st =>
      now <- gets clock;;
      if Qlt_bool (tmout st) now
      then modify (set_controlStick None)
      else ret tt
  end.

(** [controlStickTool(noControlError=False)]. *)
Definition controlStickTool (noControlError : bool) : M cherrypy unit :=
  modify (set_inControl false);;;
  sid0 <- gets session_id;;
  checkControlExpiration;;;
  cs <- gets controlStick;;
  match cs with
  | Some st =>
      if bool_decide (Some (sid st) = sid0)
      then
        now <- gets clock;;
        modify (set_controlStick
                  (Some (set_tmout (now + CONTROL_STICK_TIMEOUT)%Q st)));;;
        modify (set_inControl true)
      else if noControlError then raise (HTTPError 400 NoControl)
           else ret tt
  | None =>
      if noControlError then raise (HTTPError 400 NoControl) else ret tt
  end.

(** [ControlStick.GET(name=None)].  [name.strip()] is evaluated first;
    on [None] the attribute lookup fails. *)
Definition GET (name0 : option string) : M cherrypy unit :=
  name1 <- match name0 with
           | None => raise (AttributeError "NoneType" "strip")
           | Some n =>
               ret (if String.eqb (strip n) "" then None
                    else Some (strip n))
           end;;
  cs <- gets controlStick;;
  ic <- gets inControl;;
  match cs with
  | Some st =>
      if negb ic
      then
        now <- gets clock;;
        raise (HTTPError 402
                 (AskOrWait (name st) (ip st) (tmout st - now)%Q))
      else ret tt
  | None => ret tt
  end;;;
  cs <- gets controlStick;;
  match cs with
  | None =>
      sid0 <- gets session_id;;
      (if match sid0 with
          | None => true
          | Some s => String.eqb s ""
          end
       then u <- gets uuid1;; modify (set_session_id (Some u))
       else ret tt);;;
      sid1 <- gets session_id;;
      now <- gets clock;;
      rip <- gets remote_ip;;
      modify (set_controlStick
                (Some {| sid := default "" sid1;
                         tmout := (now + CONTROL_STICK_TIMEOUT)%Q;
                         name := default "Anonymous" name1;
                         ip := rip |}))
  | Some _ => ret tt
  end;;;
  modify (set_status "200 OK, you've got the stick.").

(** [ControlStick.DELETE()]. *)
Definition DELETE : M cherrypy unit :=
  ic <- gets inControl;;
  (if ic
   then modify (set_controlStick None);;; modify (set_inControl false)
   else raise (HTTPError 400 NotYours));;;
  modify (set_status "200 OK, thanks for playing.").

(** A request on [/services/control]: the tool is switched on for every
    path with its default argument and runs before the handler. *)
Definition takeStick (name0 : option string) : M cherrypy unit :=
  controlStickTool false;;; GET name0.

Definition releaseStick : M cherrypy unit :=
  controlStickTool false;;; DELETE.

(** The context of a request arriving at time [now] from a caller whose
    session identifier is [session], while [cherrypy.controlStick] is
    [stick]. *)
Definition arrives (stick : option Stick) (session : option string)
  (now : Q) (rip uuid : string) : cherrypy :=
  {| controlStick := stick; session_id := session; inControl := false;
     remote_ip := rip; status := ""; clock := now; uuid1 := uuid |}.

(** The session identifier and the display name a successful [GET]
    records. *)
Definition session_after (cp : cherrypy) : string :=
  match session_id cp with
  | None => uuid1 cp
  | Some s => if String.eqb s "" then uuid1 cp else s
  end.

Definition display_name (n : string) : string :=
  if String.eqb (strip n) "" then "Anonymous" else strip n.

(** Nobody holds the stick, or its time out has passed. *)
Definition free (cp : cherrypy) : Prop :=
  match controlStick cp with
  | None => True
  | Some st => (tmout st < clock cp)%Q
  end.

(** Four requests in a row: A takes the stick at time 0, B asks for it
    at time 10, A comes back at time 70, B asks again at time 70. *)
Definition first_A : result unit * cherrypy :=
  takeStick (Some "A") (arrives None None 0 "10.0.0.1" "uuid-A").
Definition then_B : result unit * cherrypy :=
  takeStick (Some "B")
    (arrives (controlStick (snd first_A)) None 10 "10.0.0.2" "uuid-B").
Definition late_A : result unit * cherrypy :=
  controlStickTool false
    (arrives (controlStick (snd then_B)) (session_id (snd first_A)) 70
       "10.0.0.1" "uuid-A2").
Definition late_B : result unit * cherrypy :=
  takeStick (Some "B")
    (arrives (controlStick (snd late_A)) (session_id (snd then_B)) 70
       "10.0.0.2" "uuid-B").

(** The caller's session holds the stick and its time out has not
    passed. *)
Definition holds_stick (cp : cherrypy) : Prop :=
  exists st,
    controlStick cp = Some st
    /\ (clock cp <= tmout st)%Q
    /\ session_id cp = Some (sid st).

(** Another session holds the stick [st] and its time out has not
    passed. *)
Definition held_by_other (st : Stick) (cp : cherrypy) : Prop :=
  controlStick cp = Some st
  /\ (clock cp <= tmout st)%Q
  /\ session_id cp <> Some (sid st).

End MeArmServer.

(** ** MeArmServer.py and MeArmServerI2C.py: the joint services *)
Module JointService.

(** A value of the JSON object sent with PUT, as Python's [json]
    decodes it: an [int], a [long] (an integer beyond the machine
    word), a [float], [None], a string, or a list or an object.  True
    and false become [bool], a subclass of [int]: they are [JInt 1] and
    [JInt 0] here. *)
Inductive jval :=
| JInt (z : Z)
| JLong (z : Z)
| JFloat (q : Q)
| JNull
| JText (s : string)
| JOther.

(** The texts of the 400 errors the handlers raise themselves;
    [Str m] is [str(e.args[0])] for a caught ValueError or IOError. *)
Inductive http_message :=
| ExpectedJSON
| ExpectedNonEmpty
| InvalidAttribute (k : string)
| NumberExpected (k : string) (v : jval)
| IntegerExpected (k : string) (v : jval)
| OutOfLimits (v : Z) (k : string)
| Str (m : message).

(** How a handler ends: it returns, it raises [HTTPError(400, ...)], or
    an exception of the code it calls goes through it. *)
Inductive outcome (A : Type) :=
| Returned (a : A)
| HTTPError400 (m : http_message)
| Uncaught (e : exn).
Arguments Returned {A} a.
Arguments HTTPError400 {A} m.
Arguments Uncaught {A} e.

(** [except (ValueError, IOError), e: raise
    cherrypy.HTTPError(400, str(e.args[0]))]. *)
Definition except_400 {A} (r : result A) : outcome A :=
  match r with
  | Ok a => Returned a
  | Raise (ValueError m) => HTTPError400 (Str m)
  | Raise (IOError m) => HTTPError400 (Str m)
  | Raise e => Uncaught e
  end.

Definition attribute (k : string) : bool :=
  String.eqb k "pos" || String.eqb k "min" || String.eqb k "max".

(** *** The class [Joint] of MeArmServer.py; [j] is the joint of the
    instance, [getattr(arm, self.jointName.lower())]. *)

(** [isinstance(v, (int, float))]. *)
Definition number (v : jval) : option Q :=
  match v with
  | JInt z => Some (inject_Z z)
  | JFloat q => Some q
  | JLong _ | JNull | JText _ | JOther => None
  end.

(** The body of the loop of [PUT] for the key [k] with value [v]; the
    result is the new value of [json[k]]. *)
Definition PUT_key (j : MeArm.jref) (k : string) (v : jval)
  (arm : MeArm.arm) : outcome (option Q) * MeArm.arm :=
  if negb (attribute k) then (HTTPError400 (InvalidAttribute k), arm)
  else
    match number v with
    | None => (HTTPError400 (NumberExpected k v), arm)
    | Some q =>
        let '(r, arm') :=
          if String.eqb k "pos" then MeArm.goto j q arm
          else if String.eqb k "min"
          then bind (MeArm.setLimit j (Some q) None)
                 (fun _ => gets (fun a => Some (MeArm.jmin (MeArm.joint j a))))
                 arm
          else bind (MeArm.setLimit j None (Some q))
                 (fun _ => gets (fun a => Some (MeArm.jmax (MeArm.joint j a))))
                 arm
        in (except_400 r, arm')
    end.

(** The loop [for k in json], over the entries of the object in the
    order of the iteration; the keys of an object are distinct. *)
Fixpoint PUT_keys (j : MeArm.jref) (entries : list (string * jval))
  (arm : MeArm.arm) : outcome (list (string * option Q)) * MeArm.arm :=
  match entries with
  | [] => (Returned [], arm)
  | (k, v) :: rest =>
      match PUT_key j k v arm with
      | (Returned x, arm') =>
          match PUT_keys j rest arm' with
          | (Returned l, arm'') => (Returned ((k, x) :: l), arm'')
          | (HTTPError400 m, arm'') => (HTTPError400 m, arm'')
          | (Uncaught e, arm'') => (Uncaught e, arm'')
          end
      | (HTTPError400 m, arm') => (HTTPError400 m, arm')
      | (Uncaught e, arm') => (Uncaught e, arm')
      end
  end.

(** [Joint.PUT]: [json] is [None] when the request has no JSON body. *)
Definition PUT (j : MeArm.jref) (json : option (list (string * jval)))
  (arm : MeArm.arm) : outcome (list (string * option Q)) * MeArm.arm :=
  match json with
  | None => (HTTPError400 ExpectedJSON, arm)
  | Some [] => (HTTPError400 ExpectedNonEmpty, arm)
  | Some entries => PUT_keys j entries arm
  end.

(** A PUT request: the handler is decorated with
    [cherrypy.tools.controlStick(noControlError=True)], which runs
    before it. *)
Definition request_PUT (j : MeArm.jref)
  (json : option (list (string * jval)))
  (cp : MeArmServer.cherrypy) (arm : MeArm.arm)
  : outcome (list (string * option Q)) * MeArmServer.cherrypy * MeArm.arm :=
  match MeArmServer.controlStickTool true cp with
  | (Ok _, cp') => let '(r, arm') := PUT j json arm in (r, cp', arm')
  | (Raise e, cp') => (Uncaught e, cp', arm)
  end.

(** *** The class [Joint] of MeArmServerI2C.py; [jointReg] is the
    register of the instance. *)

(** The body of the loop of [PUT] for the key [k] with value [v]. *)
Definition PUT_I2C_key (jointReg : Z) (k : string) (v : jval)
  (arm : MeArmControl.MeArmI2C) : outcome Z * MeArmControl.MeArmI2C :=
  if negb (attribute k) then (HTTPError400 (InvalidAttribute k), arm)
  else
    match v with
    | JInt z =>
        if negb ((0 <=? z) && (z <=? 180))
        then (HTTPError400 (OutOfLimits z k), arm)
        else
          let '(r, arm') :=
            if String.eqb k "pos"
            then MeArmControl.joint jointReg (Some z) arm
            else MeArmControl.jointLimit jointReg k (Some z) arm
          in (except_400 r, arm')
    | _ => (HTTPError400 (IntegerExpected k v), arm)
    end.

Fixpoint PUT_I2C_keys (jointReg : Z) (entries : list (string * jval))
  (arm : MeArmControl.MeArmI2C)
  : outcome (list (string * Z)) * MeArmControl.MeArmI2C :=
  match entries with
  | [] => (Returned [], arm)
  | (k, v) :: rest =>
      match PUT_I2C_key jointReg k v arm with
      | (Returned x, arm') =>
          match PUT_I2C_keys jointReg rest arm' with
          | (Returned l, arm'') => (Returned ((k, x) :: l), arm'')
          | (HTTPError400 m, arm'') => (HTTPError400 m, arm'')
          | (Uncaught e, arm'') => (Uncaught e, arm'')
          end
      | (HTTPError400 m, arm') => (HTTPError400 m, arm')
      | (Uncaught e, arm') => (Uncaught e, arm')
      end
  end.

Definition PUT_I2C (jointReg : Z) (json : option (list (string * jval)))
  (arm : MeArmControl.MeArmI2C)
  : outcome (list (string * Z)) * MeArmControl.MeArmI2C :=
  match json with
  | None => (HTTPError400 ExpectedJSON, arm)
  | Some [] => (HTTPError400 ExpectedNonEmpty, arm)
  | Some entries => PUT_I2C_keys jointReg entries arm
  end.

(** A bus operation that carries no joint value, or one between 0 and
    180. *)
Definition carries_angle (op : MeArmControl.busop) : Prop :=
  match op with
  | MeArmControl.write_byte_data _ _ val => 0 <= val <= 180
  | MeArmControl.write_i2c_block_data _ _ vals =>
      exists subInd val, vals = [subInd; val] /\ 0 <= val <= 180
  | _ => True
  end.

(** [sends_angles arm s]: [s] is the same connection as [arm], and the
    operations issued between them carry angles only. *)
Definition sends_angles (arm s : MeArmControl.MeArmI2C) : Prop :=
  MeArmControl.i2cAddr s = MeArmControl.i2cAddr arm
  /\ MeArmControl.remote s = MeArmControl.remote arm
  /\ exists ops,
       MeArmControl.trace s = MeArmControl.trace arm ++ ops
       /\ Forall carries_angle ops.

End JointService.

(** * Properties *)

(** ** Numbers *)
Section Numbers.
Local Open Scope Q_scope.

Lemma Qle_bool_false (x y : Q) : Qle_bool x y = false <-> y < x.
Proof.
  split.
  - intros H. apply Qnot_le_lt. rewrite <- Qle_bool_iff. congruence.
  - intros H. destruct (Qle_bool x y) eqn:E; [|reflexivity].
    apply Qle_bool_iff in E. exfalso. exact (Qlt_not_le _ _ H E).
Qed.

Lemma Qlt_bool_iff (x y : Q) : Qlt_bool x y = true <-> x < y.
Proof. unfold Qlt_bool. rewrite negb_true_iff. apply Qle_bool_false. Qed.

Lemma Qlt_bool_false (x y : Q) : Qlt_bool x y = false <-> y <= x.
Proof. unfold Qlt_bool. rewrite negb_false_iff. apply Qle_bool_iff. Qed.

(** On a non-negative number [int] is the floor. *)
Lemma py_int_floor (x : Q) : 0 <= x -> py_int x = Qfloor x.
Proof.
  destruct x as [n d]. unfold Qle, py_int, Qfloor. simpl. intros H.
  apply Z.quot_div_nonneg; lia.
Qed.

Lemma tenths (z : Z) : Qmake z 10 == inject_Z z * (1 # 10).
Proof. unfold Qeq, Qmult, inject_Z. simpl. lia. Qed.

(** [round(x, 1)] moves a number by at most half a tenth. *)
Lemma py_round1_near (x : Q) :
  x - (1 # 20) <= py_round1 x <= x + (1 # 20).
Proof.
  unfold py_round1. destruct (Qle_bool 0 x).
  - pose proof (Qfloor_le (x * 10 + (1 # 2))) as Hlo.
    pose proof (Qlt_floor (x * 10 + (1 # 2))) as Hhi.
    rewrite inject_Z_plus in Hhi. rewrite tenths.
    set (f := inject_Z (Qfloor (x * 10 + (1 # 2)))) in *.
    change (inject_Z 1) with 1 in Hhi. clearbody f. lra.
  - pose proof (Qfloor_le (- x * 10 + (1 # 2))) as Hlo.
    pose proof (Qlt_floor (- x * 10 + (1 # 2))) as Hhi.
    rewrite inject_Z_plus in Hhi. rewrite tenths.
    set (f := inject_Z (Qfloor (- x * 10 + (1 # 2)))) in *.
    change (inject_Z 1) with 1 in Hhi. clearbody f. lra.
Qed.

End Numbers.

(** ** Rounding to binary64 *)
Section Rounding.
Import Binary64.
Local Open Scope Q_scope.

Lemma inject_Z_minus (x y : Z) : inject_Z (x - y) = inject_Z x - inject_Z y.
Proof. unfold Z.sub. rewrite inject_Z_plus, inject_Z_opp. reflexivity. Qed.

Lemma pow2_pos z : 0 < pow2 z.
Proof. apply Qpower_0_lt. reflexivity. Qed.

Lemma pow2_plus a b : pow2 (a + b) == pow2 a * pow2 b.
Proof. apply Qpower_plus. discriminate. Qed.

Lemma pow2_le a b : (a <= b)%Z -> pow2 a <= pow2 b.
Proof. intros H. apply Qpower_le_compat_l; [exact H | discriminate]. Qed.

Lemma pow2_inject k : (0 <= k)%Z -> inject_Z (2 ^ k) == pow2 k.
Proof. intros H. apply (Zpower_Qpower 2 k H). Qed.

Lemma pow2_half z : pow2 (z - 1) == pow2 z * (1 # 2).
Proof. unfold Z.sub. rewrite pow2_plus. reflexivity. Qed.

(** [ilog2 y] is the integer part of the binary logarithm of [y]. *)
Lemma ilog2_spec y : 0 < y -> pow2 (ilog2 y) <= y /\ y < pow2 (ilog2 y + 1).
Proof.
  intros Hy. destruct y as [n d]. unfold ilog2. cbn [Qnum Qden].
  assert (Hn : (0 < n)%Z).
  { unfold Qlt in Hy. cbn in Hy. lia. }
  set (a := Z.log2 n). set (b := Z.log2 (Z.pos d)).
  assert (Ha : (0 <= a)%Z) by apply Z.log2_nonneg.
  assert (Hb : (0 <= b)%Z) by apply Z.log2_nonneg.
  destruct (Z.log2_spec n Hn) as [Hn1 Hn2]. fold a in Hn1, Hn2.
  destruct (Z.log2_spec (Z.pos d) (Pos2Z.is_pos d)) as [Hd1 Hd2].
  fold b in Hd1, Hd2.
  assert (Qn1 : pow2 a <= inject_Z n).
  { rewrite <- pow2_inject by exact Ha. rewrite <- Zle_Qle. exact Hn1. }
  assert (Qn2 : inject_Z n < pow2 (a + 1)).
  { rewrite <- pow2_inject by lia. rewrite <- Zlt_Qlt.
    replace (a + 1)%Z with (Z.succ a) by lia. exact Hn2. }
  assert (Qd1 : pow2 b <= inject_Z (Z.pos d)).
  { rewrite <- pow2_inject by exact Hb. rewrite <- Zle_Qle. exact Hd1. }
  assert (Qd2 : inject_Z (Z.pos d) < pow2 (b + 1)).
  { rewrite <- pow2_inject by lia. rewrite <- Zlt_Qlt.
    replace (b + 1)%Z with (Z.succ b) by lia. exact Hd2. }
  assert (Hq : n # d == inject_Z n / inject_Z (Z.pos d))
    by apply Qmake_Qdiv.
  assert (Hdp : 0 < inject_Z (Z.pos d)) by reflexivity.
  assert (Lo : pow2 (a - b - 1) <= n # d).
  { rewrite Hq. apply Qle_shift_div_l; [exact Hdp|].
    apply Qle_trans with (pow2 (a - b - 1) * pow2 (b + 1)).
    - apply Qmult_le_l; [apply pow2_pos | apply Qlt_le_weak, Qd2].
    - rewrite <- pow2_plus. replace (a - b - 1 + (b + 1))%Z with a by lia.
      exact Qn1. }
  assert (Hi : n # d < pow2 (a - b + 1)).
  { rewrite Hq. apply Qlt_shift_div_r; [exact Hdp|].
    apply Qlt_le_trans with (pow2 (a + 1)); [exact Qn2|].
    replace (a + 1)%Z with (a - b + 1 + b)%Z by lia. rewrite pow2_plus.
    apply Qmult_le_l; [apply pow2_pos | exact Qd1]. }
  destruct (Qle_bool (pow2 (a - b)) (n # d)) eqn:T.
  - apply Qle_bool_iff in T. split; assumption.
  - apply Qle_bool_false in T.
    split; [exact Lo|]. replace (a - b - 1 + 1)%Z with (a - b)%Z by lia.
    exact T.
Qed.

Lemma ilog2_lt y n : (0 <= n)%Z -> 0 <= y -> y < pow2 n -> (ilog2 y < n)%Z.
Proof.
  intros Hn0 H0 Hn. destruct (Qlt_le_dec 0 y) as [Hy|Hy].
  - destruct (ilog2_spec y Hy) as [L _].
    apply Qpower_lt_compat_l_inv with (q := 2); [|reflexivity].
    apply Qle_lt_trans with y; assumption.
  - assert (E : Qnum y = 0%Z).
    { destruct y as [m d]. unfold Qle in *. cbn in *. lia. }
    unfold ilog2. rewrite E. change (Z.log2 0) with 0%Z.
    assert (Hb : (0 <= Z.log2 (Z.pos (Qden y)))%Z) by apply Z.log2_nonneg.
    destruct (Qle_bool _ y) eqn:T; [|lia].
    apply Qle_bool_iff in T. exfalso. apply (Qlt_irrefl 0).
    apply Qlt_le_trans with (pow2 (0 - Z.log2 (Z.pos (Qden y)))).
    + apply pow2_pos.
    + apply Qle_trans with y; assumption.
Qed.

Lemma ulp_exp_le x n :
  (0 <= n)%Z -> Qabs x < pow2 n -> (ulp_exp x <= n - 53)%Z.
Proof.
  intros Hn H. unfold ulp_exp.
  pose proof (ilog2_lt (Qabs x) n Hn (Qabs_nonneg x) H). lia.
Qed.

(** The nearest integer is at most a half away. *)
Lemma rne_error y : Qabs (inject_Z (rne y) - y) <= 1 # 2.
Proof.
  unfold rne. pose proof (Qfloor_le y) as L. pose proof (Qlt_floor y) as U.
  set (f := Qfloor y) in *.
  assert (E1 : inject_Z (f + 1) == inject_Z f + 1).
  { rewrite inject_Z_plus. reflexivity. }
  rewrite E1 in U.
  apply Qabs_Qle_condition.
  destruct (Qcompare_spec (y - inject_Z f) (1 # 2)) as [C|C|C].
  - destruct (Z.even f); [|rewrite E1]; lra.
  - lra.
  - rewrite E1. lra.
Qed.

Lemma rne_floor y : (Qfloor y <= rne y)%Z.
Proof.
  unfold rne. destruct (Qcompare _ _); [destruct (Z.even _)| |]; lia.
Qed.

Lemma rne_ge (n : Z) y : inject_Z n <= y -> (n <= rne y)%Z.
Proof.
  intros H. apply Z.le_trans with (Qfloor y); [|apply rne_floor].
  rewrite <- (Qfloor_Z n). apply Qfloor_resp_le, H.
Qed.

(** Rounding moves a number by at most half a unit in the last place. *)
Lemma rnd_error x : Qabs (rnd x - x) <= pow2 (ulp_exp x) * (1 # 2).
Proof.
  unfold rnd. set (u := pow2 (ulp_exp x)).
  assert (Hu : 0 < u) by apply pow2_pos.
  assert (E : inject_Z (rne (x / u)) * u - x
              == (inject_Z (rne (x / u)) - x / u) * u).
  { field. lra. }
  rewrite E, Qabs_Qmult, (Qabs_pos u) by lra.
  rewrite (Qmult_comm u). apply Qmult_le_compat_r; [apply rne_error | lra].
Qed.

Lemma rnd_error_below x n :
  (0 <= n)%Z -> Qabs x < pow2 n -> Qabs (rnd x - x) <= pow2 (n - 54).
Proof.
  intros Hn H. eapply Qle_trans; [apply rnd_error|].
  rewrite <- pow2_half. apply pow2_le.
  pose proof (ulp_exp_le x n Hn H). lia.
Qed.

(** Below 4096 the rounding error is at most [2^-42]. *)
Lemma rnd_error_4096 x :
  Qabs x < 4096 -> Qabs (rnd x - x) <= 1 # 4398046511104.
Proof.
  intros H. apply (rnd_error_below x 12); [lia | exact H].
Qed.

Lemma round64_4096 x : Qabs x < 4096 -> round64 x = Finite (rnd x).
Proof.
  intros H. unfold round64. pose proof (rnd_error_4096 x H) as E.
  destruct (Qle_bool (pow2 1024) (Qabs (rnd x))) eqn:T; [|reflexivity].
  exfalso. apply Qle_bool_iff in T.
  assert (B : Qabs (rnd x) <= 4097).
  { apply Qabs_Qle_condition in E. apply Qabs_Qlt_condition in H.
    apply Qabs_Qle_condition. lra. }
  assert (P : 4097 < pow2 1024) by reflexivity.
  lra.
Qed.

(** Rounding does not cross an integer that is a float at the exponent
    of the number rounded. *)
Lemma rnd_ge_int (n : Z) x :
  (ulp_exp x <= 0)%Z -> inject_Z n <= x -> inject_Z n <= rnd x.
Proof.
  intros He H. unfold rnd. set (e := ulp_exp x) in *.
  assert (Hu : 0 < pow2 e) by apply pow2_pos.
  assert (Ei : pow2 e * inject_Z (2 ^ (- e)) == 1).
  { rewrite pow2_inject by lia. rewrite <- pow2_plus.
    replace (e + - e)%Z with 0%Z by lia. reflexivity. }
  assert (En : inject_Z (n * 2 ^ (- e)) * pow2 e == inject_Z n).
  { rewrite inject_Z_mult, <- Qmult_assoc, (Qmult_comm _ (pow2 e)), Ei.
    ring. }
  rewrite <- En. apply Qmult_le_compat_r; [|apply Qlt_le_weak, Hu].
  rewrite <- Zle_Qle. apply rne_ge.
  apply Qle_shift_div_l; [exact Hu|]. rewrite En. exact H.
Qed.

Lemma rnd_ge_int_4096 (n : Z) x :
  Qabs x < 4096 -> inject_Z n <= x -> inject_Z n <= rnd x.
Proof.
  intros B. apply rnd_ge_int.
  pose proof (ulp_exp_le x 12 ltac:(lia) B). lia.
Qed.

(** The float of a number between 0 and 4096, integer or float. *)
Lemma to_float_4096 (a : num) (q : Q) :
  real a = Some q -> 0 <= q < 4096 ->
  exists q', to_float a = Returns (Finite q')
             /\ 0 <= q' /\ Qabs (q' - q) <= 1 # 4398046511104.
Proof.
  intros R [H0 H].
  assert (B : Qabs q < 4096) by (apply Qabs_Qlt_condition; lra).
  destruct a as [z|[x| |]]; try discriminate R.
  - injection R as <-. exists (rnd (inject_Z z)). split; [|split].
    + unfold to_float. rewrite (round64_4096 _ B). reflexivity.
    + apply (rnd_ge_int_4096 0 _ B), H0.
    + apply rnd_error_4096, B.
  - injection R as ->. exists q. split; [reflexivity|]. split; [exact H0|].
    apply Qabs_Qle_condition. split; lra.
Qed.

End Rounding.

(** ** Angle and pulse width *)
Section Conversions.
Import Binary64.
Local Open Scope Q_scope.

(** The float that [__init__] stores in [pwPdeg] for the default
    [pwMin=550] and [pwMax=2500]: the one nearest to 1950/180. *)
Lemma calibrate_default :
  calibrate (Int 550) (Int 2500)
  = Returns {| pwMin := Int 550; pwMax := Int 2500;
               pwPdeg := Float (Finite (6098624495397547 # 562949953421312)) |}.
Proof. vm_compute. reflexivity. Qed.

(** Under the default calibration the pulse width of an angle [q]
    between 0 and 180 is the integer part of a float [v] that is at
    least 550 and within [2^-38] of [q * pwPdeg + 550]. *)
Lemma angleToPulse_default self (a : num) (q : Q) :
  calibrate (Int 550) (Int 2500) = Returns self ->
  real a = Some q -> 0 <= q <= 180 ->
  exists v,
    angleToPulse self a = Returns (Qfloor v)
    /\ 550 <= v
    /\ Qabs (v - (q * (6098624495397547 # 562949953421312) + 550))
       <= 1 # 274877906944.
Proof.
  intros C R [Hq0 Hq1]. rewrite calibrate_default in C. injection C as <-.
  destruct (to_float_4096 a q R) as (q' & Ea & Hq' & Eq'); [lra|].
  apply Qabs_Qle_condition in Eq'.
  unfold angleToPulse. cbn [pwPdeg pwMin].
  set (K := 6098624495397547 # 562949953421312).
  assert (Em : mul a (Float (Finite K)) = Returns (Float (round64 (q' * K)))).
  { destruct a as [z|f]; unfold mul, coerce; rewrite Ea; reflexivity. }
  rewrite Em. cbn [and_then]. clear Em Ea R.
  (* a * self.pwPdeg *)
  assert (B1 : Qabs (q' * K) < 4096).
  { apply Qabs_Qlt_condition. unfold K. lra. }
  rewrite (round64_4096 _ B1).
  pose proof (rnd_error_4096 _ B1) as E1. apply Qabs_Qle_condition in E1.
  assert (P1 : inject_Z 0 <= rnd (q' * K)).
  { apply (rnd_ge_int_4096 0 _ B1). change (inject_Z 0) with 0.
    unfold K. lra. }
  change (inject_Z 0) with 0 in P1.
  set (m1 := rnd (q' * K)) in *. clearbody m1.
  (* ... + self.pwMin *)
  unfold add, coerce, to_float. cbn [and_then].
  assert (B550 : Qabs (inject_Z 550) < 4096) by reflexivity.
  rewrite (round64_4096 _ B550). cbn [and_then fadd].
  assert (E550 : rnd (inject_Z 550) == 550) by reflexivity.
  set (c550 := rnd (inject_Z 550)) in *. clearbody c550.
  assert (B2 : Qabs (m1 + c550) < 4096).
  { apply Qabs_Qlt_condition. unfold K in *. lra. }
  rewrite (round64_4096 _ B2).
  pose proof (rnd_error_4096 _ B2) as E2. apply Qabs_Qle_condition in E2.
  assert (P2 : inject_Z 550 <= rnd (m1 + c550)).
  { apply (rnd_ge_int_4096 550 _ B2). change (inject_Z 550) with 550. lra. }
  change (inject_Z 550) with 550 in P2.
  set (v := rnd (m1 + c550)) in *. clearbody v.
  (* int(...) *)
  cbn [int and_then]. exists v.
  rewrite (py_int_floor v) by lra.
  split; [reflexivity|]. split; [exact P2|].
  apply Qabs_Qle_condition. unfold K in *. lra.
Qed.

(** C3, amended.  Under the default calibration (pwMin 550, pwMax 2500),
    for every angle [a] between 0 and 180, an [int] or a float,
    [angleToPulse] returns a pulse width on which [pulseToAngle]
    returns a float that differs from [a] by at most one tenth of a
    degree plus [10^-11], which covers the rounding of the float
    operations. *)
Theorem angle_pulse_roundtrip_binary64 self (a : num) (q : Q) :
  calibrate (Int 550) (Int 2500) = Returns self ->
  real a = Some q -> 0 <= q <= 180 ->
  exists p r,
    angleToPulse self a = Returns p
    /\ pulseToAngle self p = Returns (Float (Finite r))
    /\ Qabs (r - q) <= (1 # 10) + (1 # 100000000000).
Proof.
  intros C R Hq.
  destruct (angleToPulse_default self a q C R Hq) as (v & Ep & Hv & Ev).
  destruct Hq as [Hq0 Hq1]. apply Qabs_Qle_condition in Ev.
  rewrite calibrate_default in C. injection C as <-.
  exists (Qfloor v). rewrite Ep. clear Ep R a.
  pose proof (Qfloor_le v) as Plo. pose proof (Qlt_floor v) as Phi.
  rewrite inject_Z_plus in Phi. change (inject_Z 1) with 1 in Phi.
  set (p := Qfloor v) in *.
  set (K := 6098624495397547 # 562949953421312) in *.
  (* p - self.pwMin *)
  unfold pulseToAngle. cbn [pwMin pwPdeg sub and_then].
  (* ... / self.pwPdeg *)
  unfold div, coerce, to_float. cbn [and_then].
  assert (Bd : Qabs (inject_Z (p - 550)) < 4096).
  { apply Qabs_Qlt_condition. rewrite inject_Z_minus.
    change (inject_Z 550) with 550. unfold K in *. lra. }
  rewrite (round64_4096 _ Bd). cbn [and_then].
  pose proof (rnd_error_4096 _ Bd) as Ed. apply Qabs_Qle_condition in Ed.
  set (d := rnd (inject_Z (p - 550))) in *. clearbody d.
  rewrite inject_Z_minus in Ed. change (inject_Z 550) with 550 in Ed.
  change (is_zero (Finite K)) with false. cbv iota. cbn [and_then fdiv].
  assert (Ediv : d / K == d * (562949953421312 # 6098624495397547))
    by reflexivity.
  assert (Bc : Qabs (d / K) < 4096).
  { apply Qabs_Qlt_condition. rewrite Ediv. unfold K in *. lra. }
  rewrite (round64_4096 _ Bc).
  pose proof (rnd_error_4096 _ Bc) as Ec. apply Qabs_Qle_condition in Ec.
  set (c := rnd (d / K)) in *. clearbody c.
  rewrite Ediv in Ec.
  (* ... + pm *)
  unfold pm.
  assert (Bpm : Qabs (5 # 100) < 4096) by reflexivity.
  rewrite (round64_4096 _ Bpm). unfold add, coerce, to_float.
  cbn [and_then fadd].
  pose proof (rnd_error_4096 _ Bpm) as Epm. apply Qabs_Qle_condition in Epm.
  set (pm' := rnd (5 # 100)) in *. clearbody pm'.
  assert (Bx : Qabs (c + pm') < 4096).
  { apply Qabs_Qlt_condition. unfold K in *. lra. }
  rewrite (round64_4096 _ Bx).
  pose proof (rnd_error_4096 _ Bx) as Ex. apply Qabs_Qle_condition in Ex.
  set (x := rnd (c + pm')) in *. clearbody x.
  (* round(..., 1) *)
  unfold round1, to_float. cbn [and_then].
  pose proof (py_round1_near x) as Et.
  assert (Bt : Qabs (py_round1 x) < 4096).
  { apply Qabs_Qlt_condition. unfold K in *. lra. }
  rewrite (round64_4096 _ Bt).
  pose proof (rnd_error_4096 _ Bt) as Er. apply Qabs_Qle_condition in Er.
  set (t := py_round1 x) in *. clearbody t.
  exists (rnd t). split; [reflexivity|]. split; [reflexivity|].
  set (r := rnd t) in *. clearbody r.
  apply Qabs_Qle_condition. unfold K in *.
  clear Bd. set (ip := inject_Z p) in *. clearbody ip. clear p.
  split; lra.
Qed.

Lemma angle_pulse_roundtrip_binary64_witness :
  exists p r,
    angleToPulse
      {| pwMin := Int 550; pwMax := Int 2500;
         pwPdeg := Float (Finite (6098624495397547 # 562949953421312)) |}
      (Float (Finite 90)) = Returns p
    /\ pulseToAngle
         {| pwMin := Int 550; pwMax := Int 2500;
            pwPdeg := Float (Finite (6098624495397547 # 562949953421312)) |}
         p = Returns (Float (Finite r))
    /\ Qabs (r - 90) <= (1 # 10) + (1 # 100000000000).
Proof.
  refine (angle_pulse_roundtrip_binary64 _ (Float (Finite 90)) 90 _ _ _).
  - vm_compute. reflexivity.
  - reflexivity.
  - split; discriminate.
Defined.

(** C3, as stated, fails at 18 degrees: the pulse width is 745, and the
    angle read back is the float nearest to 18.1, which is more than one
    tenth above 18. *)
Lemma angle_pulse_roundtrip_at_18 :
  exists self r,
    calibrate (Int 550) (Int 2500) = Returns self
    /\ angleToPulse self (Int 18) = Returns 745%Z
    /\ pulseToAngle self 745 = Returns (Float (Finite r))
    /\ r == 2547348539231437 # 140737488355328
    /\ ~ Qabs (r - 18) <= 1 # 10.
Proof.
  eexists. eexists. split; [vm_compute; reflexivity|].
  split; [vm_compute; reflexivity|].
  split; [vm_compute; reflexivity|].
  split; [vm_compute; reflexivity|].
  vm_compute. intros H. apply H. reflexivity.
Qed.

(** At 0 degrees the pulse width is 550 and the angle read back is the
    float nearest to one tenth. *)
Example roundtrip_at_zero :
  exists self r,
    calibrate (Int 550) (Int 2500) = Returns self
    /\ angleToPulse self (Int 0) = Returns 550%Z
    /\ pulseToAngle self 550 = Returns (Float (Finite r))
    /\ r == 3602879701896397 # 36028797018963968.
Proof.
  eexists. eexists. split; [vm_compute; reflexivity|].
  split; [vm_compute; reflexivity|].
  split; vm_compute; reflexivity.
Qed.

End Conversions.

(** ** Positioning a joint *)
Section Goto.
Import MeArm.
Local Open Scope Q_scope.

Lemma in_limits_true jt pos :
  in_limits jt pos = true <-> jmin jt <= pos <= jmax jt.
Proof. unfold in_limits. rewrite andb_true_iff, !Qle_bool_iff. tauto. Qed.

Lemma in_limits_false jt pos :
  in_limits jt pos = false <-> pos < jmin jt \/ jmax jt < pos.
Proof. unfold in_limits. rewrite andb_false_iff, !Qle_bool_false. tauto. Qed.

Lemma getPos_state j deg self : snd (getPos j deg self) = self.
Proof.
  unfold getPos, bind, gets, ret.
  destruct (_ =? 0)%Z; [reflexivity|].
  destruct deg; [|reflexivity].
  destruct (pulseToAngle self _); reflexivity.
Qed.

Lemma getPos_eta j deg self :
  getPos j deg self = (fst (getPos j deg self), self).
Proof.
  rewrite <- (getPos_state j deg self) at 3. apply surjective_pairing.
Qed.

Lemma goto_rejected self j pos :
  in_limits (joint j self) pos = false ->
  goto j pos self =
    (Raise (ValueError (AngleOutsideLimits pos (name (joint j self))
                          (jmin (joint j self)) (jmax (joint j self)))),
     self).
Proof. intros H. unfold goto, bind, gets. rewrite H. reflexivity. Qed.

Lemma goto_accepted self j pos :
  in_limits (joint j self) pos = true ->
  goto j pos self = (fst (getPos j true (drive j pos self)), drive j pos self).
Proof.
  intros H. unfold goto, bind, gets, modify. rewrite H.
  fold (drive j pos self). apply getPos_eta.
Qed.

Lemma joint_drive j k pos self : joint j (drive k pos self) = joint j self.
Proof. destruct j; reflexivity. Qed.

Lemma programmed_drive j pos self :
  programmed j (drive j pos self)
  = angleToPulse self (actuation_angle (joint j self) pos).
Proof.
  unfold programmed. rewrite joint_drive. unfold drive, update_io,
    set_servo_pulsewidth, get_servo_pulsewidth. cbn.
  rewrite lookup_insert_eq. reflexivity.
Qed.

Lemma writes_drive j pos self :
  writes (io (drive j pos self))
  = (writes (io self)
     ++ [(gpio (joint j self),
          angleToPulse self (actuation_angle (joint j self) pos))])%list.
Proof. reflexivity. Qed.

(** C1.  A request to position a joint below its minimum or above its
    maximum raises the ValueError of [goto] (the out of range error),
    leaves the instance as it was, so nothing is written to the servo
    channel and [getPos] reads what it read before.  The test is on the
    requested angle [pos], whatever the inversion flag of the joint. *)
Theorem goto_outside_limits self j pos :
  pos < jmin (joint j self) \/ jmax (joint j self) < pos ->
  fst (goto j pos self)
  = Raise (ValueError (AngleOutsideLimits pos (name (joint j self))
                         (jmin (joint j self)) (jmax (joint j self))))
  /\ snd (goto j pos self) = self
  /\ writes (io (snd (goto j pos self))) = writes (io self)
  /\ fst (getPos j true (snd (goto j pos self))) = fst (getPos j true self).
Proof.
  intros H. apply in_limits_false in H.
  rewrite (goto_rejected _ _ _ H). cbn. auto.
Qed.

Lemma goto_outside_limits_witness :
  (150 < jmin (joint Shoulder homed_arm)
   \/ jmax (joint Shoulder homed_arm) < 150)
  /\ fst (goto Shoulder 150 homed_arm)
     = Raise (ValueError (AngleOutsideLimits 150 "shoulder" 50 140))
  /\ snd (goto Shoulder 150 homed_arm) = homed_arm
  /\ writes (io (snd (goto Shoulder 150 homed_arm))) = writes (io homed_arm)
  /\ fst (getPos Shoulder true (snd (goto Shoulder 150 homed_arm)))
     = fst (getPos Shoulder true homed_arm).
Proof.
  assert (H : 150 < jmin (joint Shoulder homed_arm)
              \/ jmax (joint Shoulder homed_arm) < 150)
    by (right; reflexivity).
  split; [exact H|]. exact (goto_outside_limits homed_arm Shoulder 150 H).
Defined.

Example homed_writes :
  writes (io homed_arm) = [(4, 1525); (17, 1525); (27, 1525); (22, 1525)]%Z.
Proof. reflexivity. Qed.

(** C2.  For a joint whose inversion flag is set and a requested angle
    [t] within its limits, [goto] writes the pulse width of the
    reflected angle max - (t - min) to the joint's GPIO; the pulse width
    then programmed is the one a joint without inversion, on an arm with
    the same calibration, gets when it is sent to that reflected angle.
    With min 50 and max 140, sending the inverted joint to 90 programs
    what sending a plain joint to 100 programs. *)
Theorem goto_inverted self j t self' j' :
  inv (joint j self) = Some true ->
  jmin (joint j self) <= t <= jmax (joint j self) ->
  pwMin self' = pwMin self ->
  pwPdeg self' = pwPdeg self ->
  default false (inv (joint j' self')) = false ->
  jmin (joint j' self')
    <= jmax (joint j self) - (t - jmin (joint j self))
    <= jmax (joint j' self') ->
  writes (io (snd (goto j t self)))
  = (writes (io self)
     ++ [(gpio (joint j self),
          angleToPulse self
            (jmax (joint j self) - (t - jmin (joint j self))))])%list
  /\ programmed j (snd (goto j t self))
     = programmed j'
         (snd (goto j' (jmax (joint j self) - (t - jmin (joint j self)))
                 self')).
Proof.
  intros Hinv Ht Hmin Hdeg Hinv' Ht'.
  apply in_limits_true in Ht. apply in_limits_true in Ht'.
  rewrite (goto_accepted _ _ _ Ht), (goto_accepted _ _ _ Ht'). cbn [snd].
  rewrite writes_drive, !programmed_drive.
  unfold actuation_angle. rewrite Hinv, Hinv'. cbn [default].
  split; [reflexivity|].
  unfold angleToPulse. rewrite Hmin, Hdeg. reflexivity.
Qed.

Lemma goto_inverted_witness :
  writes (io (snd (goto Shoulder 90 inverted_shoulder_arm)))
  = [(17, 1633)]%Z
  /\ programmed Shoulder (snd (goto Shoulder 90 inverted_shoulder_arm))
     = programmed Shoulder (snd (goto Shoulder 100 default_arm)).
Proof.
  refine (goto_inverted inverted_shoulder_arm Shoulder 90
            default_arm Shoulder _ _ _ _ _ _).
  - reflexivity.
  - split; discriminate.
  - reflexivity.
  - reflexivity.
  - reflexivity.
  - split; discriminate.
Defined.
End Goto.

(** ** Homing and the constructor *)
Section Homing.
Import MeArm.
Local Open Scope Q_scope.

Lemma angleToPulse_drive j pos self a :
  angleToPulse (drive j pos self) a = angleToPulse self a.
Proof. reflexivity. Qed.

Lemma getPos_ok j self :
  Qeq_bool (pwPdeg self) 0 = false ->
  exists p, fst (getPos j true self) = Ok p.
Proof.
  intros H. unfold getPos, bind, gets, ret, pulseToAngle. cbn.
  destruct (_ =? 0)%Z; [eauto|]. rewrite H. eauto.
Qed.

Lemma home_returns self j self' :
  home j self = (Ok tt, self') ->
  in_limits (joint j self) (home_angle (joint j self)) = true
  /\ self' = drive j (home_angle (joint j self)) self.
Proof.
  unfold home, bind at 1, gets at 1.
  destruct (in_limits (joint j self) (home_angle (joint j self))) eqn:E.
  - unfold bind. rewrite (goto_accepted _ _ _ E).
    destruct (fst (getPos j true _)); cbn; intros H; inversion H; auto.
  - unfold bind. rewrite (goto_rejected _ _ _ E). discriminate.
Qed.

Lemma home_in_limits self j :
  Qeq_bool (pwPdeg self) 0 = false ->
  in_limits (joint j self) (home_angle (joint j self)) = true ->
  home j self = (Ok tt, drive j (home_angle (joint j self)) self).
Proof.
  intros Hk E. unfold home, bind, gets. rewrite (goto_accepted _ _ _ E).
  destruct (getPos_ok j (drive j (home_angle (joint j self)) self) Hk)
    as [p Hp].
  rewrite Hp. reflexivity.
Qed.

Lemma homeAll_returns self self' :
  homeAll self = (Ok tt, self') ->
  writes (io self')
  = (writes (io self)
     ++ map (home_command self) [Base; Shoulder; Wrist; Grip])%list.
Proof.
  unfold homeAll, for_each.
  unfold bind at 1.
  destruct (home Base self) as [[[]|e1] s1] eqn:E1; [|discriminate].
  unfold bind at 1.
  destruct (home Shoulder s1) as [[[]|e2] s2] eqn:E2; [|discriminate].
  unfold bind at 1.
  destruct (home Wrist s2) as [[[]|e3] s3] eqn:E3; [|discriminate].
  unfold bind at 1.
  destruct (home Grip s3) as [[[]|e4] s4] eqn:E4; [|discriminate].
  intros H. inversion H; subst self'; clear H.
  apply home_returns in E1 as [_ ->], E2 as [_ ->], E3 as [_ ->],
    E4 as [_ ->].
  rewrite !writes_drive, !joint_drive, !angleToPulse_drive.
  rewrite <- !app_assoc. reflexivity.
Qed.

(** C9.  When the constructor returns, it has written to the servo
    channel, after whatever was written on the connection before and in
    the order base, shoulder, wrist, grip, the pulse width of the home
    angle of each joint. *)
Theorem init_homes_all b s w g pwMin pwMax conn :
  fst (__init__ b s w g pwMin pwMax conn) = Ok tt ->
  writes (io (snd (__init__ b s w g pwMin pwMax conn)))
  = (writes conn
     ++ map (home_command (new_arm b s w g pwMin pwMax conn))
          [Base; Shoulder; Wrist; Grip])%list.
Proof.
  unfold __init__.
  destruct (homeAll (new_arm b s w g pwMin pwMax conn)) as [r sf] eqn:E.
  cbn [fst snd]. intros ->.
  exact (homeAll_returns _ _ E).
Qed.

Lemma init_homes_all_witness :
  fst (__init__ armDef_base armDef_shoulder armDef_wrist armDef_grip
         pwMin_default pwMax_default idle_conn) = Ok tt
  /\ writes (io homed_arm)
     = [(4, 1525); (17, 1525); (27, 1525); (22, 1525)]%Z.
Proof.
  assert (H : fst (__init__ armDef_base armDef_shoulder armDef_wrist
                     armDef_grip pwMin_default pwMax_default idle_conn)
              = Ok tt) by reflexivity.
  split; [exact H|].
  exact (init_homes_all armDef_base armDef_shoulder armDef_wrist
           armDef_grip pwMin_default pwMax_default idle_conn H).
Defined.

End Homing.

(** ** Joint limits *)
Section Limits.
Import MeArm.
Local Open Scope Q_scope.

Lemma init_returns b s w g pwMin pwMax conn :
  let self := new_arm b s w g pwMin pwMax conn in
  Qeq_bool (pwPdeg self) 0 = false ->
  (forall j, in_limits (joint j self) (home_angle (joint j self)) = true) ->
  fst (__init__ b s w g pwMin pwMax conn) = Ok tt.
Proof.
  intros self Hk Hin. unfold __init__, homeAll, for_each. fold self.
  unfold bind at 1. rewrite (home_in_limits self Base Hk (Hin Base)).
  unfold bind at 1. rewrite home_in_limits; [|exact Hk|exact (Hin Shoulder)].
  unfold bind at 1. rewrite home_in_limits; [|exact Hk|exact (Hin Wrist)].
  unfold bind at 1. rewrite home_in_limits; [|exact Hk|exact (Hin Grip)].
  reflexivity.
Qed.

Lemma joint_update_same j f self :
  joint j (update_joint j f self) = f (joint j self).
Proof. destruct j; reflexivity. Qed.

(** The minimum branch refuses a minimum above the effective maximum or
    below zero before anything is changed. *)
Lemma setLimit_min_refused self j mn maxL :
  (match maxL with Some m => m | None => jmax (joint j self) end < mn
   \/ mn < 0) ->
  setLimit j (Some mn) maxL self
  = (Raise (AttributeError "ValueError" "format"), self).
Proof.
  intros H. unfold setLimit. unfold bind at 1. unfold bind at 1.
  unfold gets at 1.
  destruct (Qlt_bool _ mn) eqn:E1; [reflexivity|].
  destruct (Qlt_bool mn 0) eqn:E2; [reflexivity|].
  apply Qlt_bool_false in E1, E2. exfalso. destruct H as [H|H].
  - exact (Qlt_not_le _ _ H E1).
  - exact (Qlt_not_le _ _ H E2).
Qed.

(** With the servo off, [getPos] is [None]. *)
Lemma getPos_off j self :
  programmed j self = 0%Z -> getPos j true self = (Ok None, self).
Proof.
  unfold programmed, getPos, bind, gets. intros ->. reflexivity.
Qed.

Lemma programmed_update_joint_min j mn self :
  programmed j (update_joint j (set_jmin mn) self) = programmed j self.
Proof. unfold programmed. rewrite joint_update_same. reflexivity. Qed.

Lemma programmed_update_joint_max j mx self :
  programmed j (update_joint j (set_jmax mx) self) = programmed j self.
Proof. unfold programmed. rewrite joint_update_same. reflexivity. Qed.

(** A call that gives only a valid minimum. *)
Lemma setLimit_min_only self j mn :
  0 <= mn <= jmax (joint j self) ->
  let s1 := update_joint j (set_jmin mn) self in
  setLimit j (Some mn) None self
  = match fst (getPos j true s1) with
    | Ok p =>
        if py_lt p mn
        then (match fst (getPos j true (drive j mn s1)) with
              | Ok _ => Ok tt
              | Raise e => Raise e
              end, drive j mn s1)
        else (Ok tt, s1)
    | Raise e => (Raise e, s1)
    end.
Proof.
  intros [H0 H1] s1. unfold setLimit. unfold bind at 1. unfold bind at 1.
  unfold gets at 1.
  assert (E1 : Qlt_bool (jmax (joint j self)) mn = false)
    by (apply Qlt_bool_false; exact H1).
  assert (E2 : Qlt_bool mn 0 = false) by (apply Qlt_bool_false; exact H0).
  rewrite E1, E2. unfold bind at 1. unfold modify at 1. fold s1.
  pose proof (getPos_eta j true s1) as E.
  unfold bind at 1.
  destruct (fst (getPos j true s1)) as [p|e0]; rewrite E; [|reflexivity].
  destruct (py_lt p mn); [|reflexivity].
  assert (Hin : in_limits (joint j s1) mn = true).
  { apply in_limits_true. unfold s1. rewrite joint_update_same. cbn.
    split; [apply Qle_refl | exact H1]. }
  unfold bind at 1. rewrite (goto_accepted _ _ _ Hin).
  destruct (fst (getPos j true (drive j mn s1))); reflexivity.
Qed.

(** A call that gives only a valid maximum. *)
Lemma setLimit_max_only self j mx :
  jmin (joint j self) <= mx <= 180 ->
  let s1 := update_joint j (set_jmax mx) self in
  setLimit j None (Some mx) self
  = match fst (getPos j true s1) with
    | Ok p =>
        if py_gt p mx
        then (match fst (getPos j true (drive j mx s1)) with
              | Ok _ => Ok tt
              | Raise e => Raise e
              end, drive j mx s1)
        else (Ok tt, s1)
    | Raise e => (Raise e, s1)
    end.
Proof.
  intros [H0 H1] s1. unfold setLimit. unfold bind at 1. unfold ret at 1.
  unfold bind at 1. unfold gets at 1.
  assert (E1 : Qlt_bool mx (jmin (joint j self)) = false)
    by (apply Qlt_bool_false; exact H0).
  assert (E2 : Qlt_bool 180 mx = false) by (apply Qlt_bool_false; exact H1).
  rewrite E1, E2. unfold bind at 1. unfold modify at 1. fold s1.
  pose proof (getPos_eta j true s1) as E.
  unfold bind at 1.
  destruct (fst (getPos j true s1)) as [p|e0]; rewrite E; [|reflexivity].
  destruct (py_gt p mx); [|reflexivity].
  assert (Hin : in_limits (joint j s1) mx = true).
  { apply in_limits_true. unfold s1. rewrite joint_update_same. cbn.
    split; [exact H0 | apply Qle_refl]. }
  unfold bind at 1. rewrite (goto_accepted _ _ _ Hin).
  destruct (fst (getPos j true (drive j mx s1))); reflexivity.
Qed.

(** C10.  While the servo of a joint is off ([getPos] is [None]), a
    call of [setLimit] that gives a valid minimum alone (between 0 and
    the joint's maximum) sets the minimum and drives the joint to it:
    one pulse width is written; a call that gives a valid maximum alone
    (between the joint's minimum and 180) sets the maximum, returns and
    writes nothing. *)
Theorem setLimit_servo_off self j mn mx :
  programmed j self = 0%Z ->
  0 <= mn <= jmax (joint j self) ->
  jmin (joint j self) <= mx <= 180 ->
  (snd (setLimit j (Some mn) None self)
   = drive j mn (update_joint j (set_jmin mn) self)
   /\ writes (io (snd (setLimit j (Some mn) None self)))
      = (writes (io self)
         ++ [(gpio (joint j self),
              angleToPulse self
                (actuation_angle (set_jmin mn (joint j self)) mn))])%list)
  /\ setLimit j None (Some mx) self
     = (Ok tt, update_joint j (set_jmax mx) self)
  /\ writes (io (snd (setLimit j None (Some mx) self))) = writes (io self).
Proof.
  intros Hoff Hmn Hmx.
  assert (A : snd (setLimit j (Some mn) None self)
              = drive j mn (update_joint j (set_jmin mn) self)).
  { rewrite (setLimit_min_only _ _ _ Hmn). cbv zeta.
    rewrite getPos_off by (rewrite programmed_update_joint_min; exact Hoff).
    reflexivity. }
  assert (B : setLimit j None (Some mx) self
              = (Ok tt, update_joint j (set_jmax mx) self)).
  { rewrite (setLimit_max_only _ _ _ Hmx). cbv zeta.
    rewrite getPos_off by (rewrite programmed_update_joint_max; exact Hoff).
    reflexivity. }
  split; [split; [exact A|] | split; [exact B|]].
  - rewrite A, writes_drive, joint_update_same. reflexivity.
  - rewrite B. reflexivity.
Qed.

Lemma setLimit_servo_off_witness :
  snd (setLimit Wrist (Some 60) None default_arm)
  = drive Wrist 60 (update_joint Wrist (set_jmin 60) default_arm)
  /\ writes (io (snd (setLimit Wrist (Some 60) None default_arm)))
     = [(27, 1200)]%Z
  /\ setLimit Wrist None (Some 120) default_arm
     = (Ok tt, update_joint Wrist (set_jmax 120) default_arm)
  /\ writes (io (snd (setLimit Wrist None (Some 120) default_arm))) = [].
Proof.
  assert (H1 : programmed Wrist default_arm = 0%Z) by reflexivity.
  assert (H2 : 0 <= 60 <= jmax (joint Wrist default_arm))
    by (split; discriminate).
  assert (H3 : jmin (joint Wrist default_arm) <= 120 <= 180)
    by (split; discriminate).
  destruct (setLimit_servo_off default_arm Wrist 60 120 H1 H2 H3)
    as [[A B] [C D]].
  repeat split; assumption.
Defined.

End Limits.

Section LimitsConcrete.
Import MeArm.
Local Open Scope Q_scope.

Lemma getPos_update_joint_min j mn self :
  fst (getPos j true (update_joint j (set_jmin mn) self))
  = fst (getPos j true self).
Proof.
  destruct self as [b s w g lo hi k conn].
  destruct j; unfold getPos, bind, gets, ret, pulseToAngle;
    cbv [update_joint joint set_jmin gpio io pwPdeg pwMin];
    (destruct (_ =? 0)%Z; [reflexivity|]);
    destruct (Qeq_bool k 0); reflexivity.
Qed.

(** A valid minimum given alone is stored, and a joint read below it
    is driven to it. *)
Lemma setLimit_min_repositions self j mn p :
  0 <= mn <= jmax (joint j self) ->
  fst (getPos j true self) = Ok p ->
  py_lt p mn = true ->
  snd (setLimit j (Some mn) None self)
  = drive j mn (update_joint j (set_jmin mn) self)
  /\ jmin (joint j (snd (setLimit j (Some mn) None self))) = mn
  /\ programmed j (snd (setLimit j (Some mn) None self))
     = angleToPulse self (actuation_angle (set_jmin mn (joint j self)) mn).
Proof.
  intros Hmn Hp Hlt.
  assert (A : snd (setLimit j (Some mn) None self)
              = drive j mn (update_joint j (set_jmin mn) self)).
  { rewrite (setLimit_min_only _ _ _ Hmn). cbv zeta.
    rewrite getPos_update_joint_min, Hp, Hlt. reflexivity. }
  rewrite A, joint_drive, programmed_drive, !joint_update_same.
  repeat split.
Qed.

(** A valid minimum given alone and not above the position read is
    stored without a move. *)
Lemma setLimit_min_stays self j mn p :
  0 <= mn <= jmax (joint j self) ->
  fst (getPos j true self) = Ok p ->
  py_lt p mn = false ->
  setLimit j (Some mn) None self
  = (Ok tt, update_joint j (set_jmin mn) self).
Proof.
  intros Hmn Hp Hlt. rewrite (setLimit_min_only _ _ _ Hmn). cbv zeta.
  rewrite getPos_update_joint_min, Hp, Hlt. reflexivity.
Qed.

(** The shoulder limited to 40..140 and read at 50: a new minimum of 60
    is stored and the pulse width of 60 degrees is programmed. *)
Example setLimit_min_60_from_50 :
  jmin (shoulder low_shoulder_arm) = 40
  /\ (exists p, fst (getPos Shoulder true low_shoulder_arm) = Ok (Some p)
                /\ p == 50)
  /\ jmin (shoulder (snd (setLimit Shoulder (Some 60) None low_shoulder_arm)))
     = 60
  /\ programmed Shoulder
       (snd (setLimit Shoulder (Some 60) None low_shoulder_arm))
     = angleToPulse low_shoulder_arm 60
  /\ writes (io (snd (setLimit Shoulder (Some 60) None low_shoulder_arm)))
     = [(17, 1091); (17, 1200)]%Z.
Proof.
  split; [reflexivity|]. split; [|repeat split].
  eexists. split; reflexivity.
Qed.

(** C6.  The homed default arm has its shoulder between 50 and 140,
    read at less than 150.  [setLimit(shoulder, minL=150, maxL=170)]
    gives a minimum that is valid against the maximum given with it;
    the call sets the minimum to 150, then fails in [goto] against the
    old maximum 140: nothing is written and the joint is left with
    minimum 150 and maximum 140. *)
Theorem setLimit_min_beyond_current_max :
  (0 <= 150 <= 170
   /\ exists p, fst (getPos Shoulder true homed_arm) = Ok (Some p)
                /\ p < 150)
  /\ fst (setLimit Shoulder (Some 150) (Some 170) homed_arm)
     = Raise (ValueError (AngleOutsideLimits 150 "shoulder" 150 140))
  /\ jmin (shoulder (snd (setLimit Shoulder (Some 150) (Some 170) homed_arm)))
     = 150
  /\ jmax (shoulder (snd (setLimit Shoulder (Some 150) (Some 170) homed_arm)))
     = 140
  /\ io (snd (setLimit Shoulder (Some 150) (Some 170) homed_arm))
     = io homed_arm.
Proof.
  split; [split; [split; discriminate|]|].
  - eexists; split; [reflexivity|reflexivity].
  - repeat split.
Qed.

(** C7.  [setLimit(shoulder, minL=160)] on the homed default arm, whose
    shoulder maximum is 140, leaves the instance unchanged and raises
    an AttributeError, not a ValueError; so does a minimum below 0. *)
Theorem setLimit_min_above_max_error :
  jmax (shoulder homed_arm) < 160
  /\ setLimit Shoulder (Some 160) None homed_arm
     = (Raise (AttributeError "ValueError" "format"), homed_arm)
  /\ (forall m, fst (setLimit Shoulder (Some 160) None homed_arm)
                <> Raise (ValueError m))
  /\ setLimit Shoulder (Some (-5)) None homed_arm
     = (Raise (AttributeError "ValueError" "format"), homed_arm).
Proof.
  split; [reflexivity|]. split; [reflexivity|].
  split; [intros m; discriminate | reflexivity].
Qed.

End LimitsConcrete.

(** ** The register bus *)
Section Bus.
Import MeArmControl.

Lemma OpErrors_nonzero val err : OpErrors !! val = Some err -> val <> 0.
Proof. intros H ->. vm_compute in H. discriminate. Qed.

(** The keys of [OpErrors] are the six single flags. *)
Lemma OpErrors_keys val :
  is_Some (OpErrors !! val) <-> exists k, 0 <= k <= 5 /\ val = Z.shiftl 1 k.
Proof.
  split.
  - intros [err H]. unfold OpErrors in H.
    apply elem_of_list_to_map_2 in H.
    repeat (apply elem_of_cons in H as [H|H];
            [inversion H; subst val;
             match goal with
             | |- context [Z.shiftl 1 ?n = _] =>
                 exists n; split; [lia|reflexivity]
             | |- exists k, _ /\ Z.shiftl 1 ?n = _ =>
                 exists n; split; [lia|reflexivity]
             end|]).
    inversion H.
  - intros [k [Hk ->]].
    assert (C : k = 0 \/ k = 1 \/ k = 2 \/ k = 3 \/ k = 4 \/ k = 5) by lia.
    destruct C as [->|[->|[->|[->|[->| ->]]]]]; vm_compute; eauto.
Qed.

Lemma getError_eq self :
  getError self
  = (error_outcome (remote self (nread self)),
     after (error_check self) 1 self).
Proof.
  unfold getError, bind, issue, _settleDelay, modify, bus_read_byte,
    error_outcome, after, error_check.
  cbn [i2cAddr trace remote nread].
  rewrite <- !app_assoc. cbn [app Nat.add].
  destruct (_ =? 0); [reflexivity|].
  destruct (OpErrors !! _); reflexivity.
Qed.

Lemma run_eq t self :
  run t self
  = (match error_outcome (error_byte t self) with
     | Ok _ => Ok (match t with
                   | GetRegister _ | GetRegisterSubVal _ _ =>
                       Some (remote self (nread self))
                   | _ => None
                   end)
     | Raise ex => Raise ex
     end,
     after (transfer t self ++ error_check self) (transfer_reads t + 1) self).
Proof.
  unfold error_byte.
  destruct t; unfold run, getRegister, getRegisterSubVal, setRegister,
    setRegisterSubValue, bind, issue, _settleDelay, modify, bus_read_byte;
    rewrite getError_eq; unfold after, error_check, transfer, transfer_reads;
    cbn [i2cAddr trace remote nread];
    rewrite <- ?app_assoc; cbn [app Nat.add];
    destruct (error_outcome _); reflexivity.
Qed.

(** X31.  When the byte read from the error register is a key of
    [OpErrors], that is exactly one of the six flags, each of the four
    transactions raises the IOError made of the code and the text of
    that entry, after the transfer and the error check (the error
    register is addressed, the settle delay is paid, one byte is read)
    and nothing else on the bus. *)
Theorem transaction_error_check t self err :
  OpErrors !! error_byte t self = Some err ->
  fst (run t self) = Raise (IOError (DeviceError (c err) (e err)))
  /\ trace (snd (run t self))
     = (trace self ++ transfer t self ++ error_check self)%list.
Proof.
  intros H. rewrite run_eq. cbn [fst snd after trace]. split; [|reflexivity].
  pose proof (OpErrors_nonzero _ _ H) as Hnz. apply Z.eqb_neq in Hnz.
  unfold error_outcome. rewrite Hnz, H. reflexivity.
Qed.

Lemma transaction_error_check_witness :
  fst (run (SetRegister RegBase 200) (scripted 42 [4]))
  = Raise (IOError (DeviceError "ePLimit"
                      "Position to set is out of poistion limits"))
  /\ trace (snd (run (SetRegister RegBase 200) (scripted 42 [4])))
     = [write_byte_data 42 98 200; sleep 100;
        write_byte 42 101; sleep 100; read_byte 42].
Proof.
  refine (transaction_error_check (SetRegister RegBase 200)
            (scripted 42 [4])
            {| c := "ePLimit";
               e := "Position to set is out of poistion limits" |} _).
  reflexivity.
Defined.

Lemma transaction_no_error t self :
  error_byte t self = 0 ->
  exists v, fst (run t self) = Ok v.
Proof.
  intros H. rewrite run_eq, H. cbn. eauto.
Qed.

(** C5.  The error byte is looked up in [OpErrors] as a key and its
    flags are not decoded.  When the device answers [setRegister] with
    the error byte 3 (the flags 1 and 2 together) the lowest flag set
    is 1, whose entry is eDLen, but the transaction raises KeyError 3
    and not the IOError of eDLen. *)
Lemma getError_combined_flags :
  error_byte (SetRegister RegBase 200) (scripted 42 [3]) = 3
  /\ spec_lowest_flag 3
     = Some {| c := "eDLen";
               e := "Data length - too much or too little data" |}
  /\ fst (run (SetRegister RegBase 200) (scripted 42 [3]))
     = Raise (KeyError 3)
  /\ fst (run (SetRegister RegBase 200) (scripted 42 [3]))
     <> Raise (IOError (DeviceError "eDLen"
                         "Data length - too much or too little data")).
Proof. repeat split. discriminate. Qed.

End Bus.

(** ** The control stick *)
Section Lease.
Import MeArmServer.
Local Open Scope Q_scope.

Ltac open_request cp :=
  destruct cp as [cs s0 ic rip stt clk u]; cbn in *; subst cs;
  unfold controlStickTool, checkControlExpiration, bind, modify, gets, ret;
  cbn.

Lemma tool_unheld cp :
  controlStick cp = None ->
  controlStickTool false cp = (Ok tt, set_inControl false cp).
Proof. intros H. open_request cp. reflexivity. Qed.

Lemma tool_lapsed cp st :
  controlStick cp = Some st -> tmout st < clock cp ->
  controlStickTool false cp
  = (Ok tt, set_controlStick None (set_inControl false cp)).
Proof.
  intros H Hlt. apply Qlt_bool_iff in Hlt. open_request cp.
  rewrite Hlt. reflexivity.
Qed.

Lemma tool_other cp st :
  controlStick cp = Some st -> clock cp <= tmout st ->
  session_id cp <> Some (sid st) ->
  controlStickTool false cp = (Ok tt, set_inControl false cp).
Proof.
  intros H Hle Hne. apply Qlt_bool_false in Hle. open_request cp.
  rewrite Hle. cbn.
  rewrite bool_decide_eq_false_2 by congruence. reflexivity.
Qed.

Lemma tool_holder cp st :
  controlStick cp = Some st -> clock cp <= tmout st ->
  session_id cp = Some (sid st) ->
  controlStickTool false cp
  = (Ok tt,
     set_inControl true
       (set_controlStick
          (Some (set_tmout (clock cp + CONTROL_STICK_TIMEOUT) st))
          (set_inControl false cp))).
Proof.
  intros H Hle He. apply Qlt_bool_false in Hle. open_request cp.
  rewrite Hle. cbn.
  rewrite bool_decide_eq_true_2 by congruence. reflexivity.
Qed.

Lemma GET_free cp n :
  controlStick cp = None ->
  GET (Some n) cp
  = (Ok tt,
     set_status "200 OK, you've got the stick."
       (set_controlStick
          (Some {| sid := session_after cp;
                   tmout := clock cp + CONTROL_STICK_TIMEOUT;
                   name := display_name n;
                   ip := remote_ip cp |})
          (set_session_id (Some (session_after cp)) cp))).
Proof.
  intros H. destruct cp as [cs [s|] ic rip stt clk u]; cbn in *; subst cs;
    unfold GET, bind, modify, gets, ret, session_after, display_name; cbn.
  - destruct (String.eqb s ""); destruct (String.eqb (strip n) "");
      reflexivity.
  - destruct (String.eqb (strip n) ""); reflexivity.
Qed.
Lemma GET_denied cp st n :
  controlStick cp = Some st -> inControl cp = false ->
  GET (Some n) cp
  = (Raise (HTTPError 402
              (AskOrWait (name st) (ip st) (tmout st - clock cp))), cp).
Proof.
  intros H Hic. destruct cp as [cs s0 ic rip stt clk u]; cbn in *; subst.
  reflexivity.
Qed.

Lemma GET_absent_name cp :
  GET None cp = (Raise (AttributeError "NoneType" "strip"), cp).
Proof. reflexivity. Qed.

Lemma takeStick_free cp n :
  free cp ->
  takeStick (Some n) cp
  = (Ok tt,
     set_status "200 OK, you've got the stick."
       (set_controlStick
          (Some {| sid := session_after cp;
                   tmout := clock cp + CONTROL_STICK_TIMEOUT;
                   name := display_name n;
                   ip := remote_ip cp |})
          (set_session_id (Some (session_after cp))
             (set_inControl false cp)))).
Proof.
  unfold free, takeStick. intros H. unfold bind at 1.
  destruct (controlStick cp) as [st|] eqn:E.
  - rewrite (tool_lapsed _ _ E H). rewrite GET_free by reflexivity.
    reflexivity.
  - rewrite (tool_unheld _ E). rewrite GET_free by exact E. reflexivity.
Qed.

Lemma takeStick_denied cp st n :
  controlStick cp = Some st -> clock cp <= tmout st ->
  session_id cp <> Some (sid st) ->
  takeStick (Some n) cp
  = (Raise (HTTPError 402
              (AskOrWait (name st) (ip st) (tmout st - clock cp))),
     set_inControl false cp).
Proof.
  intros H Hle Hne. unfold takeStick, bind.
  rewrite (tool_other _ _ H Hle Hne).
  rewrite (GET_denied _ st) by (destruct cp; assumption || reflexivity).
  reflexivity.
Qed.

(** C4.  With CONTROL_STICK_TIMEOUT = 60 and a request that carries a
    name: (1) when nobody holds the stick or its time out has passed, a
    request for the stick succeeds and the stick is held by the
    caller's session until now + 60; (2) while another session holds
    the stick and its time out has not passed, the request is refused
    with status 402 and the remaining time, and the stick is unchanged;
    (3) once the time out has passed, the tool does not put the former
    holder in control; (4) A at time 0 is granted, B at time 10 is
    refused with 50 seconds to wait, A at time 70 is not in control,
    B at time 70 is granted. *)
Theorem control_stick_lease :
  (forall cp n,
     free cp ->
     fst (takeStick (Some n) cp) = Ok tt
     /\ exists st',
          controlStick (snd (takeStick (Some n) cp)) = Some st'
          /\ tmout st' = clock cp + CONTROL_STICK_TIMEOUT
          /\ session_id (snd (takeStick (Some n) cp)) = Some (sid st'))
  /\ (forall cp st n,
        controlStick cp = Some st -> clock cp <= tmout st ->
        session_id cp <> Some (sid st) ->
        fst (takeStick (Some n) cp)
        = Raise (HTTPError 402
                   (AskOrWait (name st) (ip st) (tmout st - clock cp)))
        /\ controlStick (snd (takeStick (Some n) cp)) = Some st)
  /\ (forall cp st,
        controlStick cp = Some st -> session_id cp = Some (sid st) ->
        tmout st < clock cp ->
        inControl (snd (controlStickTool false cp)) = false)
  /\ (fst first_A = Ok tt
      /\ fst then_B = Raise (HTTPError 402 (AskOrWait "A" "10.0.0.1" 50))
      /\ controlStick (snd then_B) = controlStick (snd first_A)
      /\ inControl (snd late_A) = false
      /\ fst late_B = Ok tt
      /\ controlStick (snd late_B)
         = Some {| sid := "uuid-B"; tmout := 130; name := "B";
                   ip := "10.0.0.2" |}).
Proof.
  split; [|split; [|split]].
  - intros cp n H. rewrite (takeStick_free _ _ H). cbn. eauto.
  - intros cp st n H Hle Hne. rewrite (takeStick_denied _ _ _ H Hle Hne).
    destruct cp; cbn in *. auto.
  - intros cp st H _ Hlt. rewrite (tool_lapsed _ _ H Hlt). reflexivity.
  - repeat split.
Qed.

Lemma control_stick_lease_witness :
  free (arrives None None 0 "10.0.0.1" "uuid-A")
  /\ fst (takeStick (Some "A") (arrives None None 0 "10.0.0.1" "uuid-A"))
     = Ok tt.
Proof.
  assert (H : free (arrives None None 0 "10.0.0.1" "uuid-A")) by exact I.
  split; [exact H|].
  exact (proj1 (proj1 control_stick_lease
                  (arrives None None 0 "10.0.0.1" "uuid-A") "A" H)).
Defined.

Lemma takeStick_absent_name cp :
  fst (takeStick None cp) = Raise (AttributeError "NoneType" "strip").
Proof.
  unfold takeStick, bind.
  destruct (controlStickTool false cp) as [[[]|ex] cp'] eqn:E.
  - reflexivity.
  - exfalso. revert E. destruct cp as [[st|] s0 ic rip stt clk u];
      unfold controlStickTool, checkControlExpiration, bind, modify, gets,
        ret; cbn.
    + destruct (Qlt_bool (tmout st) clk); cbn; [discriminate|].
      destruct (bool_decide _); discriminate.
    + discriminate.
Qed.

(** C8.  A request for the free stick without a name raises an
    AttributeError before the stick is looked at; nobody holds the
    stick afterwards. *)
Theorem takeStick_without_name :
  controlStick (arrives None None 0 "10.0.0.1" "uuid-A") = None
  /\ takeStick None (arrives None None 0 "10.0.0.1" "uuid-A")
     = (Raise (AttributeError "NoneType" "strip"),
        arrives None None 0 "10.0.0.1" "uuid-A").
Proof. split; reflexivity. Qed.

End Lease.

(** * Further properties of the code *)

(** ** More on numbers *)
Section Truncation.
Local Open Scope Q_scope.

(** On a number that is not positive [int] is the ceiling. *)
Lemma py_int_ceiling (x : Q) : x <= 0 -> py_int x = Qceiling x.
Proof.
  destruct x as [n d]. unfold Qle, py_int, Qceiling, Qfloor, Qopp. simpl.
  intros H. replace n with (- - n)%Z at 1 by lia.
  rewrite Z.quot_opp_l by lia. rewrite Z.quot_div_nonneg by lia.
  reflexivity.
Qed.

Lemma py_int_mono (x y : Q) : x <= y -> (py_int x <= py_int y)%Z.
Proof.
  intros H. destruct (Qlt_le_dec x 0) as [Hx|Hx].
  - rewrite (py_int_ceiling x) by (apply Qlt_le_weak; exact Hx).
    destruct (Qlt_le_dec y 0) as [Hy|Hy].
    + rewrite (py_int_ceiling y) by (apply Qlt_le_weak; exact Hy).
      apply Qceiling_resp_le; exact H.
    + rewrite (py_int_floor y Hy).
      assert (A : (Qceiling x <= Qceiling 0)%Z)
        by (apply Qceiling_resp_le, Qlt_le_weak; exact Hx).
      assert (B : (Qfloor 0 <= Qfloor y)%Z)
        by (apply Qfloor_resp_le; exact Hy).
      change (Qceiling 0) with 0%Z in A. change (Qfloor 0) with 0%Z in B.
      lia.
  - rewrite (py_int_floor x Hx).
    rewrite (py_int_floor y) by (apply Qle_trans with x; assumption).
    apply Qfloor_resp_le; exact H.
Qed.

Lemma py_int_comp (x y : Q) : x == y -> py_int x = py_int y.
Proof.
  intros H. apply Z.le_antisymm; apply py_int_mono; rewrite H;
    apply Qle_refl.
Qed.

Lemma py_int_inject (z : Z) : py_int (inject_Z z) = z.
Proof. unfold py_int, inject_Z. simpl. apply Z.quot_1_r. Qed.

End Truncation.

(** ** More on angle and pulse width *)
Section Calibration.
Import MeArm.
Local Open Scope Q_scope.

Lemma new_arm_pwPdeg_nonneg b s w g lo hi conn :
  lo <= hi -> 0 <= pwPdeg (new_arm b s w g lo hi conn).
Proof.
  intros H. cbn [pwPdeg new_arm]. unfold Qdiv.
  change (/ 180) with (1 # 180). set (d := hi - lo).
  assert (0 <= d) by (unfold d; lra). lra.
Qed.

Lemma angleToPulse_le self a a' :
  0 <= pwPdeg self -> a <= a' ->
  (angleToPulse self a <= angleToPulse self a')%Z.
Proof.
  intros Hk H. unfold angleToPulse. apply py_int_mono.
  apply Qplus_le_l. apply Qmult_le_compat_r; assumption.
Qed.

(** X2.  [angleToPulse] does not decrease with the angle. *)
Theorem angleToPulse_monotone b s w g lo hi conn a a' :
  lo <= hi -> a <= a' ->
  (angleToPulse (new_arm b s w g lo hi conn) a
   <= angleToPulse (new_arm b s w g lo hi conn) a')%Z.
Proof.
  intros Hlo H. apply angleToPulse_le; [|exact H].
  apply new_arm_pwPdeg_nonneg; exact Hlo.
Qed.

Lemma angleToPulse_monotone_witness :
  (angleToPulse default_arm 50 <= angleToPulse default_arm 60)%Z.
Proof.
  refine (angleToPulse_monotone armDef_base armDef_shoulder armDef_wrist
            armDef_grip pwMin_default pwMax_default idle_conn 50 60 _ _);
    discriminate.
Defined.

End Calibration.

(** ** The pulse widths of the default calibration *)
Section DefaultCalibration.
Import Binary64.
Local Open Scope Q_scope.

(** X1.  With the default calibration (pwMin 550, pwMax 2500) and the
    arithmetic of floats, [angleToPulse] returns, for every angle
    between 0 and 180, an [int] or a float, a pulse width between 550
    and 2500. *)
Theorem angleToPulse_default_range self (a : num) (q : Q) :
  calibrate (Int 550) (Int 2500) = Returns self ->
  real a = Some q -> 0 <= q <= 180 ->
  exists p, angleToPulse self a = Returns p /\ (550 <= p <= 2500)%Z.
Proof.
  intros C R Hq.
  destruct (angleToPulse_default self a q C R Hq) as (v & Ep & Hv & Ev).
  destruct Hq as [Hq0 Hq1]. apply Qabs_Qle_condition in Ev.
  exists (Qfloor v). split; [exact Ep|]. split.
  - rewrite <- (Qfloor_Z 550). apply Qfloor_resp_le, Hv.
  - assert (Hlt : (Qfloor v < 2501)%Z); [|lia].
    rewrite Zlt_Qlt. apply Qle_lt_trans with v; [apply Qfloor_le|].
    change (inject_Z 2501) with 2501. lra.
Qed.

Lemma angleToPulse_default_range_witness :
  exists p,
    angleToPulse
      {| pwMin := Int 550; pwMax := Int 2500;
         pwPdeg := Float (Finite (6098624495397547 # 562949953421312)) |}
      (Float (Finite 77)) = Returns p
    /\ (550 <= p <= 2500)%Z.
Proof.
  refine (angleToPulse_default_range _ (Float (Finite 77)) 77 _ _ _).
  - vm_compute. reflexivity.
  - reflexivity.
  - split; discriminate.
Defined.

End DefaultCalibration.

(** ** More on positioning *)
Section GotoMore.
Import MeArm.
Local Open Scope Q_scope.

Lemma goto_state self j pos :
  snd (goto j pos self) = self \/ snd (goto j pos self) = drive j pos self.
Proof.
  destruct (in_limits (joint j self) pos) eqn:E.
  - right. rewrite (goto_accepted _ _ _ E). reflexivity.
  - left. rewrite (goto_rejected _ _ _ E). reflexivity.
Qed.

Lemma programmed_drive_other j j' pos self :
  gpio (joint j' self) <> gpio (joint j self) ->
  programmed j' (drive j pos self) = programmed j' self.
Proof.
  intros H. unfold programmed. rewrite joint_drive.
  unfold drive, update_io, set_servo_pulsewidth, get_servo_pulsewidth.
  cbn [io pulsewidth]. rewrite lookup_insert_ne by congruence. reflexivity.
Qed.

(** X6.  Whatever its outcome, [goto] changes no joint dictionary and no
    calibration value, and leaves the pulse width of every joint on
    another GPIO as it was. *)
Theorem goto_frame self j pos j' :
  joint j' (snd (goto j pos self)) = joint j' self
  /\ pwMin (snd (goto j pos self)) = pwMin self
  /\ pwMax (snd (goto j pos self)) = pwMax self
  /\ pwPdeg (snd (goto j pos self)) = pwPdeg self
  /\ (gpio (joint j' self) <> gpio (joint j self) ->
      programmed j' (snd (goto j pos self)) = programmed j' self).
Proof.
  destruct (goto_state self j pos) as [-> | ->].
  - repeat split.
  - rewrite joint_drive. repeat split.
    intros H. apply programmed_drive_other; exact H.
Qed.

(** After an accepted request, [getPos] with [deg=False] returns the
    pulse width that was written, or [None] when that width is 0. *)
Theorem getPos_raw_after_goto self j pos :
  jmin (joint j self) <= pos <= jmax (joint j self) ->
  fst (getPos j false (snd (goto j pos self)))
  = Ok (if angleToPulse self (actuation_angle (joint j self) pos) =? 0
        then None
        else Some (inject_Z
                     (angleToPulse self
                        (actuation_angle (joint j self) pos))))%Z.
Proof.
  intros Hin. apply in_limits_true in Hin.
  rewrite (goto_accepted _ _ _ Hin). cbn [snd].
  unfold getPos, bind, gets, ret.
  change (get_servo_pulsewidth (gpio (joint j (drive j pos self)))
            (io (drive j pos self)))
    with (programmed j (drive j pos self)).
  rewrite programmed_drive.
  destruct (_ =? 0)%Z; reflexivity.
Qed.

Lemma getPos_raw_after_goto_witness :
  fst (getPos Grip false (snd (goto Grip 90 default_arm)))
  = Ok (Some (inject_Z 1525)).
Proof.
  refine (getPos_raw_after_goto default_arm Grip 90 _).
  split; discriminate.
Defined.

End GotoMore.

(** ** Reasoning about sequences of statements *)
Section Sequences.
Import MeArm.
Context {S : Type}.

Lemma for_each_app {A} (l l' : list A) (body : A -> M S unit) s :
  for_each (l ++ l') body s
  = bind (for_each l body) (fun _ => for_each l' body) s.
Proof.
  revert s. induction l as [|x l IH]; intros s; [reflexivity|].
  cbn [app for_each]. unfold bind.
  destruct (body x s) as [[[]|ex] s1]; [|reflexivity].
  rewrite IH. reflexivity.
Qed.

Lemma bind_ext {A B} (m : M S A) (k k' : A -> M S B) s :
  (forall a s', k a s' = k' a s') -> bind m k s = bind m k' s.
Proof. intros H. unfold bind. destruct (m s) as [[a|ex] s']; auto. Qed.

Lemma bind_cong {A B} (m m' : M S A) (k : A -> M S B) s :
  m s = m' s -> bind m k s = bind m' k s.
Proof. intros H. unfold bind. rewrite H. reflexivity. Qed.

Lemma bind_Ok_inv {A B} (m : M S A) (k : A -> M S B) s b :
  fst (bind m k s) = Ok b ->
  exists a s', m s = (Ok a, s') /\ fst (k a s') = Ok b.
Proof.
  unfold bind. destruct (m s) as [[a|ex] s']; cbn [fst]; [eauto|discriminate].
Qed.

Lemma bind_run {A B} (m : M S A) (k : A -> M S B) s a s' :
  m s = (Ok a, s') -> bind m k s = k a s'.
Proof. intros H. unfold bind. rewrite H. reflexivity. Qed.

Lemma returns_run {A} (P : S -> Prop) (m : M S A) s :
  returns P m -> P s -> exists a s', m s = (Ok a, s') /\ P s'.
Proof.
  intros H Hs. destruct (H s Hs) as [[a Ha] HP].
  exists a, (snd (m s)). split; [|exact HP].
  rewrite <- Ha. apply surjective_pairing.
Qed.

Section Keeps.
Variable R : S -> S -> Prop.
Hypothesis R_refl : forall s, R s s.
Hypothesis R_trans : forall s1 s2 s3, R s1 s2 -> R s2 s3 -> R s1 s3.

Lemma keeps_ret {A} (a : A) : keeps R (ret a).
Proof. intros s. apply R_refl. Qed.

Lemma keeps_raise {A} ex : keeps R (@raise S A ex).
Proof. intros s. apply R_refl. Qed.

Lemma keeps_gets {A} (f : S -> A) : keeps R (gets f).
Proof. intros s. apply R_refl. Qed.

Lemma keeps_bind {A B} (m : M S A) (k : A -> M S B) :
  keeps R m -> (forall a, keeps R (k a)) -> keeps R (bind m k).
Proof.
  intros Hm Hk s. unfold bind. specialize (Hm s).
  destruct (m s) as [[a|ex] s1]; cbn [snd] in *; [|exact Hm].
  apply R_trans with s1; [exact Hm|apply Hk].
Qed.

Lemma keeps_for_each {A} (l : list A) (body : A -> M S unit) :
  (forall x, keeps R (body x)) -> keeps R (for_each l body).
Proof.
  intros H. induction l as [|x l IH]; cbn [for_each].
  - apply keeps_ret.
  - apply keeps_bind; [apply H|intros _; exact IH].
Qed.

Lemma keeps_except (m : M S unit) :
  keeps R m -> keeps R (except_ValueError_pass m).
Proof.
  intros H s. unfold except_ValueError_pass. specialize (H s).
  destruct (m s) as [[[]|[]] s1]; exact H.
Qed.

End Keeps.

Section Returns.
Variable P : S -> Prop.

Lemma returns_ret {A} (a : A) : returns P (ret a).
Proof. intros s H. split; [eexists; reflexivity|exact H]. Qed.

Lemma returns_gets {A} (f : S -> A) : returns P (gets f).
Proof. intros s H. split; [eexists; reflexivity|exact H]. Qed.

Lemma returns_bind {A B} (m : M S A) (k : A -> M S B) :
  returns P m -> (forall a, returns P (k a)) -> returns P (bind m k).
Proof.
  intros Hm Hk s H. unfold bind. destruct (Hm s H) as [[a Ha] HP].
  destruct (m s) as [r s1]; cbn [fst snd] in *. subst r.
  apply Hk; exact HP.
Qed.

Lemma returns_for_each {A} (l : list A) (body : A -> M S unit) :
  (forall x, returns P (body x)) -> returns P (for_each l body).
Proof.
  intros H. induction l as [|x l IH]; cbn [for_each].
  - apply returns_ret.
  - apply returns_bind; [apply H|intros _; exact IH].
Qed.

End Returns.
End Sequences.

(** ** What the arm operations never do *)
Section ArmInvariants.
Import MeArm.
Local Open Scope Q_scope.

Lemma same_setup_refl s : same_setup s s.
Proof. repeat split. Qed.

Lemma same_setup_trans s1 s2 s3 :
  same_setup s1 s2 -> same_setup s2 s3 -> same_setup s1 s3.
Proof.
  intros (J1 & A1 & B1 & C1) (J2 & A2 & B2 & C2).
  split; [intros j; rewrite J2; apply J1|].
  repeat split; congruence.
Qed.

Lemma same_setup_drive j pos s : same_setup s (drive j pos s).
Proof. repeat split. Qed.

Lemma within_limits_write_setup s1 s2 w :
  same_setup s1 s2 -> within_limits_write s2 w -> within_limits_write s1 w.
Proof.
  intros (J & A & B & C) (j & pos & Hin & ->). exists j, pos.
  rewrite J in Hin. split; [exact Hin|].
  rewrite J. unfold angleToPulse. rewrite A, C. reflexivity.
Qed.

Lemma moves_refl s : moves_within_limits s s.
Proof.
  split; [apply same_setup_refl|]. exists []. split; [|constructor].
  symmetry. apply app_nil_r.
Qed.

Lemma moves_trans s1 s2 s3 :
  moves_within_limits s1 s2 -> moves_within_limits s2 s3 ->
  moves_within_limits s1 s3.
Proof.
  intros (H1 & ws1 & E1 & F1) (H2 & ws2 & E2 & F2).
  split; [exact (same_setup_trans _ _ _ H1 H2)|].
  exists (ws1 ++ ws2)%list. split.
  - rewrite E2, E1, app_assoc. reflexivity.
  - apply Forall_app. split; [exact F1|].
    eapply Forall_impl; [exact F2|].
    intros w. apply within_limits_write_setup. exact H1.
Qed.

Lemma keeps_moves_getPos j deg : keeps moves_within_limits (getPos j deg).
Proof. intros s. rewrite getPos_state. apply moves_refl. Qed.

Lemma keeps_moves_goto j pos : keeps moves_within_limits (goto j pos).
Proof.
  intros s. destruct (in_limits (joint j s) pos) eqn:E.
  - rewrite (goto_accepted _ _ _ E). cbn [snd].
    split; [apply same_setup_drive|].
    eexists. split; [apply writes_drive|].
    constructor; [|constructor]. exists j, pos. split; [exact E|reflexivity].
  - rewrite (goto_rejected _ _ _ E). apply moves_refl.
Qed.

Lemma keeps_moves_home j : keeps moves_within_limits (home j).
Proof.
  unfold home.
  apply keeps_bind; [apply moves_trans|apply keeps_gets, moves_refl|].
  intros jt.
  apply keeps_bind; [apply moves_trans|apply keeps_moves_goto|].
  intros _. apply keeps_ret, moves_refl.
Qed.

Lemma keeps_moves_homeAll : keeps moves_within_limits homeAll.
Proof.
  apply keeps_for_each; [apply moves_refl|apply moves_trans|].
  apply keeps_moves_home.
Qed.

Lemma keeps_moves_qtest_try a j : keeps moves_within_limits (qtest_try a j).
Proof.
  unfold qtest_try. apply keeps_except.
  apply keeps_bind; [apply moves_trans|apply keeps_moves_goto|].
  intros _.
  apply keeps_bind; [apply moves_trans|apply keeps_moves_getPos|].
  intros _. apply keeps_ret, moves_refl.
Qed.

Lemma keeps_moves_sweep fuel :
  forall a step, keeps moves_within_limits (qtest_sweep fuel a step).
Proof.
  induction fuel as [|fuel IH]; intros a step; cbn [qtest_sweep].
  - apply keeps_ret, moves_refl.
  - destruct (Qle_bool 0 a); [|apply keeps_ret, moves_refl].
    apply keeps_bind; [apply moves_trans| |].
    + apply keeps_for_each; [apply moves_refl|apply moves_trans|].
      apply keeps_moves_qtest_try.
    + intros _. destruct (Qle_bool 180 (a + step)); apply IH.
Qed.

Lemma keeps_moves_qtest fuel : keeps moves_within_limits (qtest fuel).
Proof.
  unfold qtest.
  apply keeps_bind; [apply moves_trans| |].
  { apply keeps_for_each; [apply moves_refl|apply moves_trans|].
    intros j.
    apply keeps_bind; [apply moves_trans|apply keeps_gets, moves_refl|].
    intros jt.
    apply keeps_bind; [apply moves_trans|apply keeps_moves_goto|].
    intros _. apply keeps_ret, moves_refl. }
  intros _.
  apply keeps_bind; [apply moves_trans|apply keeps_moves_sweep|].
  intros [|]; [|apply keeps_ret, moves_refl].
  apply keeps_bind; [apply moves_trans| |].
  { apply keeps_for_each; [apply moves_refl|apply moves_trans|].
    intros j.
    apply keeps_bind; [apply moves_trans|apply keeps_gets, moves_refl|].
    intros jt.
    apply keeps_bind; [apply moves_trans|apply keeps_moves_goto|].
    intros _.
    apply keeps_bind; [apply moves_trans|apply keeps_gets, moves_refl|].
    intros jt'.
    apply keeps_bind; [apply moves_trans|apply keeps_moves_goto|].
    intros _. apply keeps_ret, moves_refl. }
  intros _.
  apply keeps_bind; [apply moves_trans|apply keeps_moves_homeAll|].
  intros _. apply keeps_ret, moves_refl.
Qed.

(** X7.  Whatever their outcome, [goto], [home], [homeAll] and [qtest] leave
    the joint dictionaries and the calibration as they were, and every
    pulse width they write is the one of an angle within the limits of
    the joint it is written for. *)
Theorem arm_moves_within_limits self :
  (forall j pos, moves_within_limits self (snd (goto j pos self)))
  /\ (forall j, moves_within_limits self (snd (home j self)))
  /\ moves_within_limits self (snd (homeAll self))
  /\ (forall fuel, moves_within_limits self (snd (qtest fuel self))).
Proof.
  split; [|split; [|split]].
  - intros j pos. apply keeps_moves_goto.
  - intros j. apply keeps_moves_home.
  - apply keeps_moves_homeAll.
  - intros fuel. apply keeps_moves_qtest.
Qed.

End ArmInvariants.

(** ** More on joint limits *)
Section LimitsMore.
Import MeArm.
Local Open Scope Q_scope.

Lemma only_limits_refl j s : only_limits_of j s s.
Proof. repeat split. Qed.

Lemma only_limits_trans j s1 s2 s3 :
  only_limits_of j s1 s2 -> only_limits_of j s2 s3 -> only_limits_of j s1 s3.
Proof.
  intros (J1 & A1 & B1 & C1 & D1 & E1 & F1 & G1)
         (J2 & A2 & B2 & C2 & D2 & E2 & F2 & G2).
  split; [intros j' H; rewrite (J2 j' H); apply (J1 j' H)|].
  repeat split; congruence.
Qed.

Lemma joint_update_other j j' f s :
  j' <> j -> joint j' (update_joint j f s) = joint j' s.
Proof. destruct j, j'; intros H; try reflexivity; contradiction. Qed.

Lemma only_limits_set_jmin j v s :
  only_limits_of j s (update_joint j (set_jmin v) s).
Proof.
  split; [intros j' H; apply joint_update_other; exact H|].
  rewrite joint_update_same. repeat split.
Qed.

Lemma only_limits_set_jmax j v s :
  only_limits_of j s (update_joint j (set_jmax v) s).
Proof.
  split; [intros j' H; apply joint_update_other; exact H|].
  rewrite joint_update_same. repeat split.
Qed.

Lemma keeps_only_limits_goto j k pos : keeps (only_limits_of j) (goto k pos).
Proof.
  intros s. destruct (goto_state s k pos) as [-> | ->].
  - apply only_limits_refl.
  - repeat split.
Qed.

Lemma keeps_only_limits_getPos j k deg :
  keeps (only_limits_of j) (getPos k deg).
Proof. intros s. rewrite getPos_state. apply only_limits_refl. Qed.

Ltac keeps_step j :=
  first
    [ apply keeps_ret, only_limits_refl
    | apply keeps_raise, only_limits_refl
    | apply keeps_gets, only_limits_refl
    | apply keeps_only_limits_goto
    | apply keeps_only_limits_getPos
    | apply keeps_bind; [apply only_limits_trans| |intros ?] ].

Lemma keeps_only_limits_setLimit j minL maxL :
  keeps (only_limits_of j) (setLimit j minL maxL).
Proof.
  unfold setLimit. keeps_step j.
  - destruct minL as [mn|]; [|keeps_step j].
    keeps_step j; [keeps_step j|].
    destruct (Qlt_bool _ mn); [keeps_step j|].
    destruct (Qlt_bool mn 0); [keeps_step j|].
    keeps_step j; [intros s; apply only_limits_set_jmin|].
    keeps_step j; [keeps_step j|].
    destruct (py_lt _ mn); repeat keeps_step j.
  - destruct maxL as [mx|]; [|keeps_step j].
    keeps_step j; [keeps_step j|].
    destruct (Qlt_bool mx _); [keeps_step j|].
    destruct (Qlt_bool 180 mx); [keeps_step j|].
    keeps_step j; [intros s; apply only_limits_set_jmax|].
    keeps_step j; [keeps_step j|].
    destruct (py_gt _ mx); repeat keeps_step j.
Qed.

(** X11.  Whatever its arguments and its outcome, [setLimit] changes nothing
    of the instance but the servo channel and the two limits of the
    joint it is called for. *)
Theorem setLimit_frame self j minL maxL :
  only_limits_of j self (snd (setLimit j minL maxL self)).
Proof. apply keeps_only_limits_setLimit. Qed.

(** The maximum branch refuses a maximum below the minimum or above 180
    before anything is changed. *)
Lemma setLimit_max_refused self j mx :
  mx < jmin (joint j self) \/ 180 < mx ->
  setLimit j None (Some mx) self
  = (Raise (ValueError
              (if Qlt_bool mx (jmin (joint j self))
               then MaxLessThanMin mx (jmin (joint j self))
                      (name (joint j self))
               else MaxGreaterThan180 (name (joint j self)))),
     self).
Proof.
  intros H. unfold setLimit. unfold bind at 1. unfold ret at 1.
  unfold bind at 1. unfold gets at 1.
  destruct (Qlt_bool mx (jmin (joint j self))) eqn:E1; [reflexivity|].
  destruct (Qlt_bool 180 mx) eqn:E2; [reflexivity|].
  apply Qlt_bool_false in E1, E2. exfalso. destruct H as [H|H].
  - exact (Qlt_not_le _ _ H E1).
  - exact (Qlt_not_le _ _ H E2).
Qed.

(** X8.  A call of [setLimit] that gives only a maximum below the joint's
    minimum or above 180 raises a ValueError that says which, and
    leaves the instance as it was. *)
Theorem setLimit_max_invalid self j mx :
  mx < jmin (joint j self) \/ 180 < mx ->
  snd (setLimit j None (Some mx) self) = self
  /\ (mx < jmin (joint j self) ->
      fst (setLimit j None (Some mx) self)
      = Raise (ValueError (MaxLessThanMin mx (jmin (joint j self))
                             (name (joint j self)))))
  /\ (jmin (joint j self) <= mx ->
      fst (setLimit j None (Some mx) self)
      = Raise (ValueError (MaxGreaterThan180 (name (joint j self))))).
Proof.
  intros H. rewrite (setLimit_max_refused _ _ _ H). cbn [fst snd].
  split; [reflexivity|]. split; intros H'.
  - apply Qlt_bool_iff in H'. rewrite H'. reflexivity.
  - apply Qlt_bool_false in H'. rewrite H'. reflexivity.
Qed.

Lemma setLimit_max_invalid_witness :
  snd (setLimit Grip None (Some 200) homed_arm) = homed_arm
  /\ fst (setLimit Grip None (Some 200) homed_arm)
     = Raise (ValueError (MaxGreaterThan180 "grip"))
  /\ fst (setLimit Grip None (Some 70) homed_arm)
     = Raise (ValueError (MaxLessThanMin 70 80 "grip")).
Proof.
  assert (H1 : 200 < jmin (joint Grip homed_arm) \/ 180 < 200)
    by (right; reflexivity).
  assert (H2 : 70 < jmin (joint Grip homed_arm) \/ 180 < 70)
    by (left; reflexivity).
  destruct (setLimit_max_invalid homed_arm Grip 200 H1) as (A & _ & B).
  destruct (setLimit_max_invalid homed_arm Grip 70 H2) as (_ & C & _).
  split; [exact A|]. split; [apply B; discriminate|apply C; reflexivity].
Defined.

Lemma getPos_update_joint_max j mx self :
  fst (getPos j true (update_joint j (set_jmax mx) self))
  = fst (getPos j true self).
Proof.
  destruct self as [b s w g lo hi k conn].
  destruct j; unfold getPos, bind, gets, ret, pulseToAngle;
    cbv [update_joint joint set_jmax gpio io pwPdeg pwMin];
    (destruct (_ =? 0)%Z; [reflexivity|]);
    destruct (Qeq_bool k 0); reflexivity.
Qed.

(** X9.  A call of [setLimit] that gives only a valid maximum stores it; the
    joint is driven to the new maximum when the position read is above
    it, and is not moved otherwise. *)
Theorem setLimit_max_repositions self j mx p :
  jmin (joint j self) <= mx <= 180 ->
  fst (getPos j true self) = Ok p ->
  jmax (joint j (snd (setLimit j None (Some mx) self))) = mx
  /\ (py_gt p mx = true ->
      snd (setLimit j None (Some mx) self)
      = drive j mx (update_joint j (set_jmax mx) self)
      /\ programmed j (snd (setLimit j None (Some mx) self))
         = angleToPulse self
             (actuation_angle (set_jmax mx (joint j self)) mx))
  /\ (py_gt p mx = false ->
      setLimit j None (Some mx) self
      = (Ok tt, update_joint j (set_jmax mx) self)).
Proof.
  intros Hmx Hp. rewrite (setLimit_max_only _ _ _ Hmx). cbv zeta.
  rewrite getPos_update_joint_max, Hp.
  destruct (py_gt p mx); cbn [snd].
  - rewrite joint_drive, programmed_drive, !joint_update_same.
    split; [reflexivity|]. split; [intros _; split; reflexivity|].
    discriminate.
  - rewrite joint_update_same.
    split; [reflexivity|]. split; [discriminate|reflexivity].
Qed.

Lemma setLimit_max_repositions_witness :
  exists p,
    fst (getPos Shoulder true (snd (goto Shoulder 100 default_arm)))
    = Ok p
    /\ py_gt p 80 = true
    /\ jmax (joint Shoulder
               (snd (setLimit Shoulder None (Some 80)
                       (snd (goto Shoulder 100 default_arm))))) = 80
    /\ programmed Shoulder
         (snd (setLimit Shoulder None (Some 80)
                 (snd (goto Shoulder 100 default_arm))))
       = angleToPulse default_arm 80.
Proof.
  eexists. split; [reflexivity|]. split; [reflexivity|].
  assert (H1 : jmin (joint Shoulder (snd (goto Shoulder 100 default_arm)))
               <= 80 <= 180) by (split; discriminate).
  destruct (setLimit_max_repositions
              (snd (goto Shoulder 100 default_arm)) Shoulder 80 _ H1
              eq_refl) as (A & B & _).
  split; [exact A|]. exact (proj2 (B eq_refl)).
Defined.

End LimitsMore.

(** ** More on homing and the self test *)
Section HomingMore.
Import MeArm.
Local Open Scope Q_scope.

Lemma setLimit_min_only_joint self j mn :
  0 <= mn <= jmax (joint j self) ->
  joint j (snd (setLimit j (Some mn) None self)) = set_jmin mn (joint j self).
Proof.
  intros H. rewrite (setLimit_min_only _ _ _ H). cbv zeta.
  destruct (fst (getPos j true _)) as [p|ex]; [destruct (py_lt p mn)|];
    cbn [snd]; rewrite ?joint_drive; apply joint_update_same.
Qed.

Lemma setLimit_max_only_joint self j mx :
  jmin (joint j self) <= mx <= 180 ->
  joint j (snd (setLimit j None (Some mx) self)) = set_jmax mx (joint j self).
Proof.
  intros H. rewrite (setLimit_max_only _ _ _ H). cbv zeta.
  destruct (fst (getPos j true _)) as [p|ex]; [destruct (py_gt p mx)|];
    cbn [snd]; rewrite ?joint_drive; apply joint_update_same.
Qed.

(** X10.  A joint whose limits satisfy 0 <= min <= max <= 180 still has
    such limits after a call of [setLimit] that gives one limit alone,
    whatever finite number is given and whatever the outcome.  The
    values [v] are the ints and the finite floats: the float NaN, which
    is in no order with any limit, is not among them. *)
Theorem setLimit_single_keeps_limits self j v :
  limits_ok (joint j self) ->
  limits_ok (joint j (snd (setLimit j (Some v) None self)))
  /\ limits_ok (joint j (snd (setLimit j None (Some v) self))).
Proof.
  intros (H0 & H1 & H2). split.
  - destruct (Qlt_le_dec (jmax (joint j self)) v) as [A|A];
      [rewrite setLimit_min_refused by (left; exact A);
       repeat split; assumption|].
    destruct (Qlt_le_dec v 0) as [B|B];
      [rewrite setLimit_min_refused by (right; exact B);
       repeat split; assumption|].
    rewrite setLimit_min_only_joint by (split; assumption).
    repeat split; cbn [jmin jmax set_jmin]; assumption.
  - destruct (Qlt_le_dec v (jmin (joint j self))) as [A|A];
      [rewrite setLimit_max_refused by (left; exact A);
       repeat split; assumption|].
    destruct (Qlt_le_dec 180 v) as [B|B];
      [rewrite setLimit_max_refused by (right; exact B);
       repeat split; assumption|].
    rewrite setLimit_max_only_joint by (split; assumption).
    repeat split; cbn [jmin jmax set_jmax]; assumption.
Qed.

Lemma setLimit_single_keeps_limits_witness :
  limits_ok (joint Wrist (snd (setLimit Wrist (Some 120) None homed_arm)))
  /\ limits_ok (joint Wrist (snd (setLimit Wrist None (Some 120) homed_arm))).
Proof.
  refine (setLimit_single_keeps_limits homed_arm Wrist 120 _).
  repeat split; discriminate.
Defined.

Lemma home_rejected self j :
  in_limits (joint j self) (home_angle (joint j self)) = false ->
  home j self
  = (Raise (ValueError
              (AngleOutsideLimits (home_angle (joint j self))
                 (name (joint j self)) (jmin (joint j self))
                 (jmax (joint j self)))), self).
Proof.
  intros E. unfold home, bind, gets. rewrite (goto_rejected _ _ _ E).
  reflexivity.
Qed.

Lemma home_command_drive j pos self j' :
  home_command (drive j pos self) j' = home_command self j'.
Proof. unfold home_command. rewrite joint_drive. reflexivity. Qed.

Lemma for_each_home_prefix pre :
  forall self,
    Qeq_bool (pwPdeg self) 0 = false ->
    (forall j, In j pre ->
               in_limits (joint j self) (home_angle (joint j self)) = true) ->
    exists s,
      for_each pre home self = (Ok tt, s)
      /\ same_setup self s
      /\ writes (io s)
         = (writes (io self) ++ map (home_command self) pre)%list.
Proof.
  induction pre as [|x pre IH]; intros self Hk Hin.
  - exists self. cbn [for_each map]. rewrite app_nil_r. repeat split.
  - cbn [for_each]. unfold bind.
    rewrite (home_in_limits self x Hk) by (apply Hin; left; reflexivity).
    set (s1 := drive x (home_angle (joint x self)) self).
    destruct (IH s1) as (s & E & Hs & Hw).
    + exact Hk.
    + intros j Hj. unfold s1. rewrite joint_drive. apply Hin. right. exact Hj.
    + exists s. split; [exact E|]. split.
      * apply same_setup_trans with s1; [apply same_setup_drive|exact Hs].
      * rewrite Hw. unfold s1 at 1. rewrite writes_drive.
        rewrite <- app_assoc. reflexivity.
Qed.

(** X12.  [homeAll] stops at the first joint, in the order base, shoulder,
    wrist, grip, whose home angle is outside its limits: the joints
    before it have been homed, the ValueError is the one of that joint,
    and nothing is written for it or for the joints after it. *)
Theorem homeAll_stops_at_first_failure self pre j post :
  joints = (pre ++ j :: post)%list ->
  Qeq_bool (pwPdeg self) 0 = false ->
  (forall j', In j' pre ->
     in_limits (joint j' self) (home_angle (joint j' self)) = true) ->
  in_limits (joint j self) (home_angle (joint j self)) = false ->
  fst (homeAll self)
  = Raise (ValueError
             (AngleOutsideLimits (home_angle (joint j self))
                (name (joint j self)) (jmin (joint j self))
                (jmax (joint j self))))
  /\ writes (io (snd (homeAll self)))
     = (writes (io self) ++ map (home_command self) pre)%list.
Proof.
  intros Hl Hk Hpre Hj. unfold homeAll. fold joints. rewrite Hl.
  rewrite for_each_app. unfold bind.
  destruct (for_each_home_prefix pre self Hk Hpre) as (s & E & Hs & Hw).
  rewrite E. cbn [for_each]. unfold bind.
  destruct Hs as (J & _).
  rewrite home_rejected by (rewrite J; exact Hj).
  rewrite J. cbn [fst snd]. split; [reflexivity|exact Hw].
Qed.

Lemma homeAll_stops_at_first_failure_witness :
  fst (homeAll low_wrist_home_arm)
  = Raise (ValueError (AngleOutsideLimits 30 "wrist" 50 140))
  /\ writes (io (snd (homeAll low_wrist_home_arm)))
     = [(4, 1525); (17, 1525)]%Z.
Proof.
  refine (homeAll_stops_at_first_failure low_wrist_home_arm
            [Base; Shoulder] Wrist [Grip] _ _ _ _).
  - reflexivity.
  - reflexivity.
  - intros j' [<-|[<-|[]]]; reflexivity.
  - reflexivity.
Defined.

End HomingMore.

(** ** The self test *)
Section SelfTest.
Import MeArm.
Local Open Scope Q_scope.

Lemma qtest_sweep_eq fuel :
  forall a step s,
    qtest_sweep fuel a step s
    = bind (for_each (sweep_angles fuel a step)
              (fun a' => for_each joints (qtest_try a')))
        (fun _ => ret (sweep_ended fuel a step)) s.
Proof.
  induction fuel as [|fuel IH]; intros a step s;
    cbn [qtest_sweep sweep_angles sweep_ended]; [reflexivity|].
  destruct (Qle_bool 0 a); [|reflexivity].
  cbn [for_each]. unfold bind at 1 2 3.
  destruct (for_each joints (qtest_try a) s) as [[[]|ex] s1]; [|reflexivity].
  destruct (Qle_bool 180 (a + step)); apply IH.
Qed.

Lemma sweep_more_fuel fuel :
  forall a step extra,
    sweep_ended fuel a step = true ->
    sweep_ended (fuel + extra) a step = true
    /\ sweep_angles (fuel + extra) a step = sweep_angles fuel a step.
Proof.
  induction fuel as [|fuel IH]; intros a step extra H;
    cbn [sweep_ended sweep_angles Nat.add] in *; [discriminate|].
  destruct (Qle_bool 0 a); [|split; reflexivity].
  destruct (Qle_bool 180 (a + step));
    destruct (IH _ _ extra H) as [E1 E2]; rewrite E2; split;
    [exact E1|reflexivity|exact E1|reflexivity].
Qed.

Lemma sweep_721 :
  sweep_ended 721 (1 # 2) (1 # 2) = true
  /\ length (sweep_angles 721 (1 # 2) (1 # 2)) = 720%nat.
Proof. vm_compute. split; reflexivity. Qed.

Lemma qtest_sweep_fuel fuel s :
  (721 <= fuel)%nat ->
  qtest_sweep fuel (1 # 2) (1 # 2) s = qtest_sweep 721 (1 # 2) (1 # 2) s.
Proof.
  intros H. replace fuel with (721 + (fuel - 721))%nat by lia.
  rewrite !qtest_sweep_eq.
  destruct (sweep_more_fuel 721 (1 # 2) (1 # 2) (fuel - 721)
              (proj1 sweep_721)) as [E1 E2].
  rewrite E1, E2, (proj1 sweep_721). reflexivity.
Qed.

Lemma qtest_sweep_ends s :
  fst (qtest_sweep 721 (1 # 2) (1 # 2) s) <> Ok false.
Proof.
  rewrite qtest_sweep_eq, (proj1 sweep_721). unfold bind.
  destruct (for_each _ _ s) as [[[]|ex] s1]; discriminate.
Qed.

Lemma in_limits_comp jt a a' : a == a' -> in_limits jt a = in_limits jt a'.
Proof.
  intros H. unfold in_limits.
  rewrite (Qleb_comp _ _ (Qeq_refl (jmin jt)) _ _ H).
  rewrite (Qleb_comp _ _ H _ _ (Qeq_refl (jmax jt))). reflexivity.
Qed.

Lemma drive_comp j a a' self : a == a' -> drive j a self = drive j a' self.
Proof.
  intros H. unfold drive. do 2 f_equal. unfold angleToPulse.
  apply py_int_comp. unfold actuation_angle.
  destruct (default false _); rewrite H; reflexivity.
Qed.

(** One joint of one pass depends on the value of the angle only. *)
Lemma qtest_try_comp a a' j s : a == a' -> qtest_try a j s = qtest_try a' j s.
Proof.
  intros H. unfold qtest_try, except_ValueError_pass, bind.
  destruct (in_limits (joint j s) a) eqn:E.
  - rewrite (goto_accepted _ _ _ E). rewrite (in_limits_comp _ _ _ H) in E.
    rewrite (goto_accepted _ _ _ E), (drive_comp j a a' s H). reflexivity.
  - rewrite (goto_rejected _ _ _ E). rewrite (in_limits_comp _ _ _ H) in E.
    rewrite (goto_rejected _ _ _ E). reflexivity.
Qed.

Lemma for_each_ext {A} (l : list A) (f g : A -> M arm unit) :
  (forall x s, f x s = g x s) -> forall s, for_each l f s = for_each l g s.
Proof.
  intros H. induction l as [|x l IH]; intros s; [reflexivity|].
  cbn [for_each]. unfold bind. rewrite (H x s).
  destruct (g x s) as [[[]|ex] s1]; [apply IH|reflexivity].
Qed.

Lemma for_each_Forall2 {A} (R : A -> A -> Prop) (f : A -> M arm unit) l l' :
  (forall x y s, R x y -> f x s = f y s) ->
  Forall2 R l l' -> forall s, for_each l f s = for_each l' f s.
Proof.
  intros H F. induction F as [|x y l l' Hxy F IH]; intros s; [reflexivity|].
  cbn [for_each]. unfold bind. rewrite (H x y s Hxy).
  destruct (f y s) as [[[]|ex] s1]; [apply IH|reflexivity].
Qed.

Lemma Forall2_Qeq_bool (l l' : list Q) :
  length l = length l' ->
  forallb (fun p => Qeq_bool (fst p) (snd p)) (combine l l') = true ->
  Forall2 Qeq l l'.
Proof.
  revert l'. induction l as [|x l IH]; intros [|y l'] HL HB;
    try discriminate HL; [constructor|].
  cbn [combine forallb fst snd] in HB. apply andb_true_iff in HB as [Hx HB].
  constructor; [apply Qeq_bool_iff, Hx|].
  apply IH; [injection HL as HL; exact HL | exact HB].
Qed.

(** The angles the loop goes through are those of [sweep_schedule]. *)
Lemma sweep_721_schedule :
  Forall2 Qeq (sweep_angles 721 (1 # 2) (1 # 2)) sweep_schedule.
Proof.
  apply Forall2_Qeq_bool; vm_compute; reflexivity.
Qed.

Lemma qtest_sweep_schedule fuel s :
  (721 <= fuel)%nat ->
  qtest_sweep fuel (1 # 2) (1 # 2) s
  = bind (for_each sweep_schedule
            (fun a => for_each joints (qtest_try a)))
      (fun _ => ret true) s.
Proof.
  intros H. rewrite (qtest_sweep_fuel fuel s H), qtest_sweep_eq.
  rewrite (proj1 sweep_721). apply bind_cong.
  apply (for_each_Forall2 Qeq); [|exact sweep_721_schedule].
  intros a a' s' Ha. apply for_each_ext. intros j s''.
  apply qtest_try_comp, Ha.
Qed.

(** X13.  The loop of [qtest] ends for every arm.  Given fuel for at
    least 721 tests of its condition, the loop is its body run in turn
    on the 720 angles 0.5, 1, ..., 180, 179.5, ..., 0, as far as the
    first pass that raises; so the run of [qtest] never stops for lack
    of fuel, and it is the same with any more fuel. *)
Theorem qtest_terminates fuel self :
  (721 <= fuel)%nat ->
  qtest fuel self = qtest 721 self
  /\ fst (qtest fuel self) <> Ok false
  /\ forall s,
       qtest_sweep fuel (1 # 2) (1 # 2) s
       = bind (for_each sweep_schedule
                 (fun a => for_each joints (qtest_try a)))
           (fun _ => ret true) s.
Proof.
  intros H.
  assert (E : qtest fuel self = qtest 721 self).
  { unfold qtest. apply bind_ext. intros _ s1. apply bind_cong.
    apply qtest_sweep_fuel. exact H. }
  split; [exact E|]. split.
  - rewrite E. unfold qtest. intros Hf.
    apply bind_Ok_inv in Hf as (? & s1 & _ & Hf).
    apply bind_Ok_inv in Hf as (ended & s2 & Hs & Hf).
    pose proof (qtest_sweep_ends s1) as Hne. rewrite Hs in Hne.
    destruct ended; [|contradiction].
    apply bind_Ok_inv in Hf as (? & s3 & _ & Hf).
    apply bind_Ok_inv in Hf as (? & s4 & _ & Hf).
    discriminate Hf.
  - intros s. apply qtest_sweep_schedule, H.
Qed.

Lemma qtest_terminates_witness :
  qtest 1000 default_arm = qtest 721 default_arm
  /\ fst (qtest 1000 default_arm) <> Ok false
  /\ forall s,
       qtest_sweep 1000 (1 # 2) (1 # 2) s
       = bind (for_each sweep_schedule
                 (fun a => for_each joints (qtest_try a)))
           (fun _ => ret true) s.
Proof.
  refine (qtest_terminates 1000 default_arm _). lia.
Defined.

Lemma keeps_moves_to_min :
  keeps moves_within_limits
    (for_each joints
       (fun j => bind (gets (joint j))
                   (fun jt => bind (goto j (jmin jt)) (fun _ => ret tt)))).
Proof.
  apply keeps_for_each; [apply moves_refl|apply moves_trans|].
  intros j.
  apply keeps_bind; [apply moves_trans|apply keeps_gets, moves_refl|].
  intros jt.
  apply keeps_bind; [apply moves_trans|apply keeps_moves_goto|].
  intros _. apply keeps_ret, moves_refl.
Qed.

Lemma keeps_moves_max_min :
  keeps moves_within_limits
    (for_each joints
       (fun j =>
          bind (gets (joint j))
            (fun jt => bind (goto j (jmax jt))
               (fun _ => bind (gets (joint j))
                  (fun jt' => bind (goto j (jmin jt'))
                     (fun _ => ret tt)))))).
Proof.
  apply keeps_for_each; [apply moves_refl|apply moves_trans|].
  intros j.
  apply keeps_bind; [apply moves_trans|apply keeps_gets, moves_refl|].
  intros jt.
  apply keeps_bind; [apply moves_trans|apply keeps_moves_goto|].
  intros _.
  apply keeps_bind; [apply moves_trans|apply keeps_gets, moves_refl|].
  intros jt'.
  apply keeps_bind; [apply moves_trans|apply keeps_moves_goto|].
  intros _. apply keeps_ret, moves_refl.
Qed.

Lemma well_configured_setup s1 s2 :
  same_setup s1 s2 -> well_configured s1 -> well_configured s2.
Proof.
  intros (J & _ & _ & C) (Hk & Hj). split; [rewrite C; exact Hk|].
  intros j. rewrite J. apply Hj.
Qed.

Lemma returns_goto_within (f : Joint -> Q) j :
  (forall s, well_configured s -> in_limits (joint j s) (f (joint j s)) = true) ->
  returns well_configured
    (bind (gets (joint j)) (fun jt => bind (goto j (f jt)) (fun _ => ret tt))).
Proof.
  intros Hf s Hs. unfold bind at 1. unfold gets. unfold bind.
  rewrite (goto_accepted _ _ _ (Hf s Hs)).
  destruct (getPos_ok j (drive j (f (joint j s)) s) (proj1 Hs)) as [p Hp].
  rewrite Hp. cbn [fst snd ret]. split; [eexists; reflexivity|].
  apply (well_configured_setup s); [apply same_setup_drive|exact Hs].
Qed.

Lemma in_limits_jmin s j :
  well_configured s -> in_limits (joint j s) (jmin (joint j s)) = true.
Proof.
  intros (_ & Hj). apply in_limits_true. split; [apply Qle_refl|apply Hj].
Qed.

Lemma in_limits_jmax s j :
  well_configured s -> in_limits (joint j s) (jmax (joint j s)) = true.
Proof.
  intros (_ & Hj). apply in_limits_true. split; [apply Hj|apply Qle_refl].
Qed.

Lemma max_min_run s j :
  well_configured s ->
  bind (gets (joint j))
    (fun jt => bind (goto j (jmax jt))
       (fun _ => bind (gets (joint j))
          (fun jt' => bind (goto j (jmin jt')) (fun _ => ret tt)))) s
  = (Ok tt,
     drive j (jmin (joint j s)) (drive j (jmax (joint j s)) s)).
Proof.
  intros Hs. unfold bind, gets.
  rewrite (goto_accepted _ _ _ (in_limits_jmax s j Hs)).
  set (s1 := drive j (jmax (joint j s)) s).
  assert (H1 : well_configured s1)
    by (apply (well_configured_setup s); [apply same_setup_drive|exact Hs]).
  destruct (getPos_ok j s1 (proj1 H1)) as [p Hp]. rewrite Hp.
  rewrite (goto_accepted _ _ _ (in_limits_jmin s1 j H1)).
  destruct (getPos_ok j (drive j (jmin (joint j s1)) s1) (proj1 H1))
    as [p' Hp'].
  rewrite Hp'. reflexivity.
Qed.

Lemma returns_qtest_try a j : returns well_configured (qtest_try a j).
Proof.
  intros s Hs. unfold qtest_try, except_ValueError_pass, bind.
  destruct (in_limits (joint j s) a) eqn:E.
  - rewrite (goto_accepted _ _ _ E).
    destruct (getPos_ok j (drive j a s) (proj1 Hs)) as [p Hp].
    rewrite Hp. rewrite (getPos_eta j true (drive j a s)), Hp.
    cbn [fst snd ret]. split; [eexists; reflexivity|].
    apply (well_configured_setup s); [apply same_setup_drive|exact Hs].
  - rewrite (goto_rejected _ _ _ E). cbn [fst snd].
    split; [eexists; reflexivity|exact Hs].
Qed.

Lemma returns_qtest_sweep fuel :
  forall a step, returns well_configured (qtest_sweep fuel a step).
Proof.
  induction fuel as [|fuel IH]; intros a step; cbn [qtest_sweep].
  - apply returns_ret.
  - destruct (Qle_bool 0 a); [|apply returns_ret].
    apply returns_bind.
    + apply returns_for_each. apply returns_qtest_try.
    + intros _. destruct (Qle_bool 180 (a + step)); apply IH.
Qed.

(** X14.  On an instance with [pwMax] different from [pwMin] whose joints
    have their minimum not above their maximum and their home angle
    within them, [qtest] returns normally, and the last four writes are
    the home positions of base, shoulder, wrist and grip. *)
Theorem qtest_returns_homed self :
  well_configured self ->
  fst (qtest 721 self) = Ok true
  /\ exists ws,
       writes (io (snd (qtest 721 self)))
       = (writes (io self) ++ ws ++ map (home_command self) joints)%list.
Proof.
  intros Hwc. unfold qtest.
  destruct (returns_run well_configured
              (for_each joints
                 (fun j => bind (gets (joint j))
                             (fun jt => bind (goto j (jmin jt))
                                          (fun _ => ret tt)))) self)
    as ([] & s1 & E1 & W1); [|exact Hwc|].
  { apply returns_for_each. intros j. apply returns_goto_within.
    intros s Hs. apply in_limits_jmin; exact Hs. }
  pose proof (keeps_moves_to_min self) as K1.
  rewrite E1 in K1. cbn [snd] in K1. rewrite (bind_run _ _ _ _ _ E1).
  destruct (returns_run well_configured (qtest_sweep 721 (1 # 2) (1 # 2)) s1
              (returns_qtest_sweep 721 _ _) W1) as (ended & s2 & E2 & W2).
  pose proof (keeps_moves_sweep 721 (1 # 2) (1 # 2) s1) as K2.
  pose proof (qtest_sweep_ends s1) as Hne.
  rewrite E2 in K2, Hne. cbn [fst snd] in K2, Hne.
  rewrite (bind_run _ _ _ _ _ E2).
  destruct ended; [|contradiction].
  destruct (returns_run well_configured
              (for_each joints
                 (fun j =>
                    bind (gets (joint j))
                      (fun jt => bind (goto j (jmax jt))
                         (fun _ => bind (gets (joint j))
                            (fun jt' => bind (goto j (jmin jt'))
                               (fun _ => ret tt)))))) s2)
    as ([] & s3 & E3 & W3); [|exact W2|].
  { apply returns_for_each. intros j s Hs.
    rewrite (max_min_run s j Hs). cbn [fst snd].
    split; [eexists; reflexivity|].
    apply (well_configured_setup s); [|exact Hs].
    apply same_setup_trans with (drive j (jmax (joint j s)) s);
      apply same_setup_drive. }
  pose proof (keeps_moves_max_min s2) as K3.
  rewrite E3 in K3. cbn [snd] in K3. rewrite (bind_run _ _ _ _ _ E3).
  destruct (for_each_home_prefix joints s3 (proj1 W3))
    as (s4 & E4 & H4 & Hw4); [intros j _; apply (proj2 W3)|].
  unfold homeAll. fold joints. rewrite (bind_run _ _ _ _ _ E4).
  cbn [ret fst snd]. split; [reflexivity|].
  pose proof (moves_trans _ _ _ K1 (moves_trans _ _ _ K2 K3))
    as (H13 & ws & Ew & _).
  exists ws. rewrite Hw4, Ew, <- app_assoc. f_equal. f_equal.
  apply map_ext. intros j. unfold home_command.
  destruct H13 as (J & A & _ & C). rewrite J. unfold angleToPulse.
  rewrite A, C. reflexivity.
Qed.

Lemma qtest_returns_homed_witness :
  fst (qtest 721 default_arm) = Ok true
  /\ exists ws,
       writes (io (snd (qtest 721 default_arm)))
       = (ws ++ [(4, 1525); (17, 1525); (27, 1525); (22, 1525)]%Z)%list.
Proof.
  refine (qtest_returns_homed default_arm _).
  split; [reflexivity|].
  intros j. destruct j; (split; [discriminate|reflexivity]).
Defined.

End SelfTest.

(** ** More on the register bus *)
Section BusMore.
Import MeArmControl.

(** X15.  Whatever the device answers, a transaction issues the same bus
    operations, the transfer and then the error check with their settle
    delays, reads the same number of bytes, and leaves the address and
    the device as they were. *)
Theorem transaction_bus_usage t self :
  trace (snd (run t self))
  = (trace self ++ transfer t self ++ error_check self)%list
  /\ nread (snd (run t self)) = (transfer_reads t + 1 + nread self)%nat
  /\ i2cAddr (snd (run t self)) = i2cAddr self
  /\ remote (snd (run t self)) = remote self.
Proof. rewrite run_eq. repeat split. Qed.

(** X16.  A non-zero error byte that is none of the six flags makes every
    transaction fail with a KeyError for that byte. *)
Theorem transaction_unknown_error t self :
  error_byte t self <> 0 ->
  (forall k, 0 <= k <= 5 -> error_byte t self <> Z.shiftl 1 k) ->
  fst (run t self) = Raise (KeyError (error_byte t self)).
Proof.
  intros Hnz Hk. rewrite run_eq. cbn [fst]. unfold error_outcome.
  apply Z.eqb_neq in Hnz. rewrite Hnz.
  destruct (OpErrors !! error_byte t self) as [err|] eqn:E; [|reflexivity].
  exfalso. destruct (proj1 (OpErrors_keys _) (ex_intro _ err E))
    as (k & Hk0 & Hk1).
  exact (Hk k Hk0 Hk1).
Qed.

Lemma transaction_unknown_error_witness :
  fst (run (GetRegister RegGrip) (scripted 42 [90; 64]))
  = Raise (KeyError 64).
Proof.
  refine (transaction_unknown_error (GetRegister RegGrip)
            (scripted 42 [90; 64]) _ _).
  - discriminate.
  - intros k Hk.
    assert (C : k = 0 \/ k = 1 \/ k = 2 \/ k = 3 \/ k = 4 \/ k = 5) by lia.
    destruct C as [->|[->|[->|[->|[->| ->]]]]]; discriminate.
Defined.

Lemma joint_eq name pos self :
  joint name pos self
  = match pos with
    | None =>
        match run (GetRegister name) self with
        | (Ok v, s) => (Ok (default 0 v), s)
        | (Raise ex, s) => (Raise ex, s)
        end
    | Some p =>
        match run (SetRegister name p) self with
        | (Ok _, s) => (Ok p, s)
        | (Raise ex, s) => (Raise ex, s)
        end
    end.
Proof.
  destruct pos as [p|]; unfold joint, run, bind, ret.
  - destruct (setRegister name p self) as [[[]|ex] s]; reflexivity.
  - destruct (getRegister name self) as [[v|ex] s]; reflexivity.
Qed.

(** X17.  When the error register reads 0, [joint] with a position returns
    that position (nothing is read back from the device), and [joint]
    without one returns the byte the device answered to the register
    address. *)
Theorem joint_returns name self :
  (forall p,
     remote self (nread self) = 0 ->
     fst (joint name (Some p) self) = Ok p
     /\ trace (snd (joint name (Some p) self))
        = (trace self
           ++ [write_byte_data (i2cAddr self) name p; sleep 100]
           ++ error_check self)%list)
  /\ (remote self (S (nread self)) = 0 ->
      fst (joint name None self) = Ok (remote self (nread self))
      /\ trace (snd (joint name None self))
         = (trace self
            ++ [write_byte (i2cAddr self) name; sleep 100;
                read_byte (i2cAddr self)]
            ++ error_check self)%list).
Proof.
  split; [intros p H|intros H]; rewrite joint_eq, run_eq;
    unfold error_byte, transfer_reads; cbn [Nat.add]; rewrite H;
    cbn; split; reflexivity.
Qed.

Lemma jointLimit_eq name limInd lim self :
  jointLimit name limInd lim self
  = if String.eqb limInd "min"
    then match lim with
         | None =>
             match run (GetRegisterSubVal name RegSubMin) self with
             | (Ok v, s) => (Ok (default 0 v), s)
             | (Raise ex, s) => (Raise ex, s)
             end
         | Some l =>
             match run (SetRegisterSubValue name RegSubMin l) self with
             | (Ok _, s) => (Ok l, s)
             | (Raise ex, s) => (Raise ex, s)
             end
         end
    else if String.eqb limInd "max"
    then match lim with
         | None =>
             match run (GetRegisterSubVal name RegSubMax) self with
             | (Ok v, s) => (Ok (default 0 v), s)
             | (Raise ex, s) => (Raise ex, s)
             end
         | Some l =>
             match run (SetRegisterSubValue name RegSubMax l) self with
             | (Ok _, s) => (Ok l, s)
             | (Raise ex, s) => (Raise ex, s)
             end
         end
    else (Raise (ValueError (InvalidLimitIndicator limInd)), self).
Proof.
  unfold jointLimit. unfold bind at 1.
  destruct (String.eqb limInd "min"); [|destruct (String.eqb limInd "max")];
    cbn [ret raise]; try reflexivity;
    (destruct lim as [l|]; unfold run, bind, ret;
     [destruct (setRegisterSubValue name _ l self) as [[[]|ex] s]
     |destruct (getRegisterSubVal name _ self) as [[v|ex] s]];
     reflexivity).
Qed.

(** X18.  [jointLimit] with a limit indicator other than "min" and "max"
    raises a ValueError before anything is sent on the bus. *)
Theorem jointLimit_invalid_indicator name limInd lim self :
  limInd <> "min"%string -> limInd <> "max"%string ->
  jointLimit name limInd lim self
  = (Raise (ValueError (InvalidLimitIndicator limInd)), self).
Proof.
  intros H1 H2. rewrite jointLimit_eq.
  apply String.eqb_neq in H1, H2. rewrite H1, H2. reflexivity.
Qed.

Lemma jointLimit_invalid_indicator_witness :
  jointLimit RegBase "Min" (Some 10) (scripted 42 [])
  = (Raise (ValueError (InvalidLimitIndicator "Min")), scripted 42 []).
Proof.
  refine (jointLimit_invalid_indicator RegBase "Min" (Some 10)
            (scripted 42 []) _ _); discriminate.
Defined.

(** When the error register reads 0, [jointLimit] with a value sends
    the sub-value indicator of the limit (193 for "min", 194 for "max")
    and the value in one block write and returns the value it was
    given; without a value it returns the byte the device answered. *)
Theorem jointLimit_returns name self l :
  (remote self (nread self) = 0 ->
   fst (jointLimit name "min" (Some l) self) = Ok l
   /\ fst (jointLimit name "max" (Some l) self) = Ok l
   /\ trace (snd (jointLimit name "min" (Some l) self))
      = (trace self
         ++ [write_i2c_block_data (i2cAddr self) name [193; l]; sleep 100]
         ++ error_check self)%list
   /\ trace (snd (jointLimit name "max" (Some l) self))
      = (trace self
         ++ [write_i2c_block_data (i2cAddr self) name [194; l]; sleep 100]
         ++ error_check self)%list)
  /\ (remote self (S (nread self)) = 0 ->
      fst (jointLimit name "min" None self) = Ok (remote self (nread self))
      /\ fst (jointLimit name "max" None self)
         = Ok (remote self (nread self))).
Proof.
  split; intros H; rewrite !jointLimit_eq; rewrite !String.eqb_refl;
    change (String.eqb "max" "min") with false; cbv iota;
    rewrite !run_eq; unfold error_byte, transfer_reads; cbn [Nat.add];
    rewrite H; cbn; repeat split.
Qed.

Lemma joint_returns_witness :
  fst (joint RegBase (Some 90) (scripted 42 [0])) = Ok 90
  /\ fst (joint RegBase None (scripted 42 [75; 0])) = Ok 75.
Proof.
  destruct (joint_returns RegBase (scripted 42 [0])) as [A _].
  destruct (joint_returns RegBase (scripted 42 [75; 0])) as [_ B].
  split; [exact (proj1 (A 90 eq_refl))|exact (proj1 (B eq_refl))].
Defined.

Lemma jointLimit_returns_witness :
  fst (jointLimit RegWrist "max" (Some 120) (scripted 42 [0])) = Ok 120
  /\ fst (jointLimit RegWrist "min" None (scripted 42 [55; 0])) = Ok 55.
Proof.
  destruct (jointLimit_returns RegWrist (scripted 42 [0]) 120) as [A _].
  destruct (jointLimit_returns RegWrist (scripted 42 [55; 0]) 0) as [_ B].
  split; [exact (proj1 (proj2 (A eq_refl)))|exact (proj1 (B eq_refl))].
Defined.

End BusMore.

(** ** More on the control stick *)
Section LeaseMore.
Import MeArmServer.
Local Open Scope Q_scope.

Ltac open_cp cp :=
  destruct cp as [cs s0 ic rip stt clk u]; cbn in *; subst cs;
  unfold controlStickTool, checkControlExpiration, bind, modify, gets, ret;
  cbn.

Lemma tool_holder_any b cp st :
  controlStick cp = Some st -> clock cp <= tmout st ->
  session_id cp = Some (sid st) ->
  controlStickTool b cp
  = (Ok tt,
     set_inControl true
       (set_controlStick
          (Some (set_tmout (clock cp + CONTROL_STICK_TIMEOUT) st))
          (set_inControl false cp))).
Proof.
  intros H Hle He. apply Qlt_bool_false in Hle. open_cp cp.
  rewrite Hle. cbn.
  rewrite bool_decide_eq_true_2 by congruence. reflexivity.
Qed.

Lemma not_holder_cases cp :
  ~ holds_stick cp ->
  controlStick cp = None
  \/ (exists st, controlStick cp = Some st /\ tmout st < clock cp)
  \/ (exists st, held_by_other st cp).
Proof.
  intros H. destruct (controlStick cp) as [st|] eqn:E; [|left; reflexivity].
  right. destruct (Qlt_le_dec (tmout st) (clock cp)) as [L|L].
  - left. exists st. split; [reflexivity|exact L].
  - right. exists st. split; [exact E|]. split; [exact L|].
    intros Hs. apply H. exists st. repeat split; assumption.
Qed.

Lemma tool_strict_refuses cp :
  ~ holds_stick cp ->
  fst (controlStickTool true cp) = Raise (HTTPError 400 NoControl)
  /\ inControl (snd (controlStickTool true cp)) = false
  /\ (forall st, held_by_other st cp ->
        controlStick (snd (controlStickTool true cp)) = Some st).
Proof.
  intros H. destruct (not_holder_cases cp H) as [E|[(st & E & L)|(st & E & L & N)]].
  - open_cp cp. repeat split. intros st [Hst _]. discriminate Hst.
  - apply Qlt_bool_iff in L. open_cp cp. rewrite L. cbn.
    repeat split. intros st' (Hst & Hle & _).
    cbn in Hst, Hle. inversion Hst; subst st'.
    apply Qlt_bool_false in Hle. congruence.
  - apply Qlt_bool_false in L. open_cp cp. rewrite L. cbn.
    rewrite bool_decide_eq_false_2 by congruence. cbn.
    repeat split. intros st' (Hst & _). exact Hst.
Qed.

(** X19.  The tool puts the caller in control exactly when the caller's
    session holds the stick and its time out has not passed, and then
    the time out becomes now + 60; otherwise the tool called with
    [noControlError=True] raises the 400 error and the caller is not in
    control. *)
Theorem tool_grants_control_to_holder cp :
  (forall st,
     controlStick cp = Some st -> clock cp <= tmout st ->
     session_id cp = Some (sid st) ->
     forall b,
       fst (controlStickTool b cp) = Ok tt
       /\ inControl (snd (controlStickTool b cp)) = true
       /\ controlStick (snd (controlStickTool b cp))
          = Some (set_tmout (clock cp + CONTROL_STICK_TIMEOUT) st))
  /\ (~ holds_stick cp ->
      fst (controlStickTool true cp) = Raise (HTTPError 400 NoControl)
      /\ inControl (snd (controlStickTool true cp)) = false
      /\ inControl (snd (controlStickTool false cp)) = false).
Proof.
  split.
  - intros st H Hle He b. rewrite (tool_holder_any b cp st H Hle He).
    repeat split.
  - intros H. destruct (tool_strict_refuses cp H) as (A & B & _).
    split; [exact A|]. split; [exact B|].
    destruct (not_holder_cases cp H)
      as [E|[(st & E & L)|(st & E & L & N)]].
    + rewrite (tool_unheld _ E). reflexivity.
    + rewrite (tool_lapsed _ _ E L). reflexivity.
    + rewrite (tool_other _ _ E L N). reflexivity.
Qed.

Lemma tool_grants_control_to_holder_witness :
  inControl
    (snd (controlStickTool true
            (arrives (controlStick (snd first_A))
               (session_id (snd first_A)) 30 "10.0.0.1" "uuid-A2")))
  = true
  /\ fst (controlStickTool true
            (arrives (controlStick (snd first_A)) None 30 "10.0.0.2"
               "uuid-B"))
     = Raise (HTTPError 400 NoControl).
Proof.
  split.
  - refine (proj1 (proj2 (proj1 (tool_grants_control_to_holder
                                   (arrives (controlStick (snd first_A))
                                      (session_id (snd first_A)) 30
                                      "10.0.0.1" "uuid-A2"))
                            {| sid := "uuid-A"; tmout := 60; name := "A";
                               ip := "10.0.0.1" |}
                            eq_refl _ eq_refl true))).
    discriminate.
  - refine (proj1 (proj2 (tool_grants_control_to_holder
                            (arrives (controlStick (snd first_A)) None 30
                               "10.0.0.2" "uuid-B")) _)).
    intros (st & Hst & _ & Hs). discriminate Hs.
Defined.

Lemma DELETE_in_control cp :
  inControl cp = true ->
  DELETE cp
  = (Ok tt,
     set_status "200 OK, thanks for playing."
       (set_inControl false (set_controlStick None cp))).
Proof.
  intros H. destruct cp as [cs s0 ic rip stt clk u]. cbn in H. subst ic.
  reflexivity.
Qed.

Lemma DELETE_not_in_control cp :
  inControl cp = false ->
  DELETE cp = (Raise (HTTPError 400 NotYours), cp).
Proof.
  intros H. destruct cp as [cs s0 ic rip stt clk u]. cbn in H. subst ic.
  reflexivity.
Qed.

(** X20.  A request to release the stick succeeds and frees the stick when
    the caller holds it; from any other caller it fails with the 400
    error, and a stick that another session holds is left as it is. *)
Theorem release_stick cp :
  (holds_stick cp ->
   fst (releaseStick cp) = Ok tt
   /\ controlStick (snd (releaseStick cp)) = None)
  /\ (~ holds_stick cp ->
      fst (releaseStick cp) = Raise (HTTPError 400 NotYours)
      /\ forall st, held_by_other st cp ->
           controlStick (snd (releaseStick cp)) = Some st).
Proof.
  unfold releaseStick. split.
  - intros (st & H & Hle & He). unfold bind.
    rewrite (tool_holder_any false cp st H Hle He).
    rewrite DELETE_in_control by reflexivity. split; reflexivity.
  - intros H. unfold bind.
    destruct (not_holder_cases cp H)
      as [E|[(st & E & L)|(st & E & L & N)]].
    + rewrite (tool_unheld _ E).
      rewrite DELETE_not_in_control by reflexivity.
      split; [reflexivity|]. intros st (Hst & _). cbn [snd].
      destruct cp; cbn in *; congruence.
    + rewrite (tool_lapsed _ _ E L).
      rewrite DELETE_not_in_control by reflexivity.
      split; [reflexivity|]. intros st' (Hst & Hle & _). exfalso.
      rewrite E in Hst. inversion Hst; subst st'.
      exact (Qlt_not_le _ _ L Hle).
    + rewrite (tool_other _ _ E L N).
      rewrite DELETE_not_in_control by reflexivity.
      split; [reflexivity|]. intros st' (Hst & _). cbn [snd].
      destruct cp; cbn in *; exact Hst.
Qed.

Lemma release_stick_witness :
  fst (releaseStick
         (arrives (controlStick (snd first_A)) (session_id (snd first_A))
            30 "10.0.0.1" "uuid-A2")) = Ok tt
  /\ controlStick
       (snd (releaseStick
               (arrives (controlStick (snd first_A))
                  (session_id (snd first_A)) 30 "10.0.0.1" "uuid-A2")))
     = None
  /\ fst (releaseStick
            (arrives (controlStick (snd first_A)) None 30 "10.0.0.2"
               "uuid-B"))
     = Raise (HTTPError 400 NotYours).
Proof.
  assert (H : holds_stick
                (arrives (controlStick (snd first_A))
                   (session_id (snd first_A)) 30 "10.0.0.1" "uuid-A2")).
  { exists {| sid := "uuid-A"; tmout := 60; name := "A";
              ip := "10.0.0.1" |}.
    split; [reflexivity|]. split; [discriminate|reflexivity]. }
  split; [|split].
  - exact (proj1 (proj1 (release_stick _) H)).
  - exact (proj2 (proj1 (release_stick _) H)).
  - refine (proj1 (proj2 (release_stick
                            (arrives (controlStick (snd first_A)) None 30
                               "10.0.0.2" "uuid-B")) _)).
    intros (st & Hst & _ & Hs). discriminate Hs.
Defined.

Lemma GET_in_control cp st n :
  controlStick cp = Some st -> inControl cp = true ->
  GET (Some n) cp = (Ok tt, set_status "200 OK, you've got the stick." cp).
Proof.
  intros H Hic. destruct cp as [cs s0 ic rip stt clk u]; cbn in *; subst.
  reflexivity.
Qed.

(** X21.  A request for the stick from the session that holds it succeeds
    again: the holder, the display name and the address recorded stay
    those of the first request, whatever name is sent now, and the
    time out becomes now + 60. *)
Theorem takeStick_again cp st n :
  controlStick cp = Some st -> clock cp <= tmout st ->
  session_id cp = Some (sid st) ->
  fst (takeStick (Some n) cp) = Ok tt
  /\ controlStick (snd (takeStick (Some n) cp))
     = Some {| sid := sid st;
               tmout := clock cp + CONTROL_STICK_TIMEOUT;
               name := name st; ip := ip st |}.
Proof.
  intros H Hle He. unfold takeStick, bind.
  rewrite (tool_holder_any false cp st H Hle He).
  rewrite (GET_in_control _ (set_tmout (clock cp + CONTROL_STICK_TIMEOUT) st))
    by reflexivity.
  split; reflexivity.
Qed.

Lemma takeStick_again_witness :
  fst (takeStick (Some "Z")
         (arrives (controlStick (snd first_A)) (session_id (snd first_A))
            30 "10.0.0.9" "uuid-A2")) = Ok tt
  /\ controlStick
       (snd (takeStick (Some "Z")
               (arrives (controlStick (snd first_A))
                  (session_id (snd first_A)) 30 "10.0.0.9" "uuid-A2")))
     = Some {| sid := "uuid-A"; tmout := 90; name := "A";
               ip := "10.0.0.1" |}.
Proof.
  refine (takeStick_again
            (arrives (controlStick (snd first_A)) (session_id (snd first_A))
               30 "10.0.0.9" "uuid-A2")
            {| sid := "uuid-A"; tmout := 60; name := "A"; ip := "10.0.0.1" |}
            "Z" eq_refl _ eq_refl).
  discriminate.
Defined.

(** X22.  While another session holds the stick and its time out has not
    passed, no request of the caller changes the stick: not a request
    for it (with or without a name), not a release, not the tool. *)
Theorem live_stick_is_exclusive cp st :
  held_by_other st cp ->
  (forall n, controlStick (snd (takeStick n cp)) = Some st)
  /\ controlStick (snd (releaseStick cp)) = Some st
  /\ (forall b, controlStick (snd (controlStickTool b cp)) = Some st).
Proof.
  intros (H & Hle & Hne).
  assert (T : forall b,
             snd (controlStickTool b cp) = set_inControl false cp).
  { intros b. apply Qlt_bool_false in Hle. open_cp cp. rewrite Hle. cbn.
    rewrite bool_decide_eq_false_2 by congruence.
    destruct b; reflexivity. }
  assert (C : controlStick (set_inControl false cp) = Some st)
    by (destruct cp; exact H).
  split; [|split].
  - intros [n|]; unfold takeStick, bind;
      rewrite (tool_other _ _ H Hle Hne).
    + rewrite (GET_denied _ st) by (destruct cp; assumption || reflexivity).
      exact C.
    + rewrite GET_absent_name. exact C.
  - unfold releaseStick, bind. rewrite (tool_other _ _ H Hle Hne).
    rewrite DELETE_not_in_control by reflexivity. exact C.
  - intros b. rewrite T. exact C.
Qed.

Lemma live_stick_is_exclusive_witness :
  controlStick
    (snd (releaseStick
            (arrives (controlStick (snd first_A)) None 10 "10.0.0.2"
               "uuid-B")))
  = controlStick (snd first_A).
Proof.
  refine (proj1 (proj2 (live_stick_is_exclusive
                          (arrives (controlStick (snd first_A)) None 10
                             "10.0.0.2" "uuid-B")
                          {| sid := "uuid-A"; tmout := 60; name := "A";
                             ip := "10.0.0.1" |} _))).
  split; [reflexivity|]. split; discriminate.
Defined.

Lemma lstrip_spaces l :
  Forall (fun ch => is_space ch = true) l -> lstrip l = [].
Proof.
  induction 1 as [|ch l H _ IH]; [reflexivity|].
  cbn [lstrip]. rewrite H. exact IH.
Qed.

(** X23.  A request for the free stick whose name is made of white space only
    (or is empty) records the holder as Anonymous. *)
Theorem blank_name_is_anonymous cp n :
  free cp ->
  Forall (fun ch => is_space ch = true) (list_ascii_of_string n) ->
  fst (takeStick (Some n) cp) = Ok tt
  /\ exists st, controlStick (snd (takeStick (Some n) cp)) = Some st
               /\ name st = "Anonymous"%string.
Proof.
  intros Hf Hn. rewrite (takeStick_free _ _ Hf). cbn [fst snd].
  split; [reflexivity|]. eexists. split; [reflexivity|].
  cbn [name]. unfold display_name, strip.
  rewrite (lstrip_spaces _ Hn). reflexivity.
Qed.

Lemma blank_name_is_anonymous_witness :
  exists st,
    controlStick
      (snd (takeStick (Some "   ") (arrives None None 0 "10.0.0.1" "u")))
    = Some st
    /\ name st = "Anonymous"%string.
Proof.
  refine (proj2 (blank_name_is_anonymous
                   (arrives None None 0 "10.0.0.1" "u") "   " I _)).
  repeat constructor.
Defined.

End LeaseMore.

(** ** The joint services *)
Section JointServiceArm.
Import MeArm MeArmServer JointService.
Local Open Scope Q_scope.

(** X24.  A PUT request from a caller that does not hold the stick fails
    with the 400 error of the tool whatever its body, and the arm is
    left as it was; from the holder, the handler runs. *)
Theorem request_PUT_needs_stick j json cp arm :
  (~ holds_stick cp ->
   fst (fst (request_PUT j json cp arm))
   = Uncaught (HTTPError 400 NoControl)
   /\ snd (request_PUT j json cp arm) = arm)
  /\ (holds_stick cp ->
      fst (fst (request_PUT j json cp arm)) = fst (PUT j json arm)
      /\ snd (request_PUT j json cp arm) = snd (PUT j json arm)).
Proof.
  unfold request_PUT. split.
  - intros H. destruct (tool_strict_refuses cp H) as (A & _).
    destruct (controlStickTool true cp) as [[[]|ex] cp']; cbn [fst] in A;
      [discriminate|]. inversion A; subst ex. split; reflexivity.
  - intros (st & H & Hle & He).
    rewrite (tool_holder_any true cp st H Hle He).
    destruct (PUT j json arm) as [r arm']. split; reflexivity.
Qed.

Lemma request_PUT_needs_stick_witness :
  fst (fst (request_PUT Base (Some [("pos"%string, JInt 10)])
              (arrives None None 0 "10.0.0.1" "u") homed_arm))
  = Uncaught (HTTPError 400 NoControl)
  /\ snd (request_PUT Base (Some [("pos"%string, JInt 10)])
            (arrives None None 0 "10.0.0.1" "u") homed_arm)
     = homed_arm.
Proof.
  refine (proj1 (request_PUT_needs_stick Base
                   (Some [("pos"%string, JInt 10)])
                   (arrives None None 0 "10.0.0.1" "u") homed_arm) _).
  intros (st & Hst & _). discriminate Hst.
Defined.

(** X25.  How [PUT] reports a refused value: a position outside the limits
    and a maximum below the minimum or above 180 give a 400 error with
    the text of the ValueError; a minimum above the maximum or below 0
    is not caught, the AttributeError of [setLimit] goes through the
    handler.  In each case the arm is left as it was. *)
Theorem PUT_refused_value j v q arm :
  number v = Some q ->
  (q < jmin (joint j arm) \/ jmax (joint j arm) < q ->
   PUT j (Some [("pos"%string, v)]) arm
   = (HTTPError400
        (Str (AngleOutsideLimits q (MeArm.name (joint j arm))
                (jmin (joint j arm)) (jmax (joint j arm)))), arm))
  /\ (q < jmin (joint j arm) \/ 180 < q ->
      snd (PUT j (Some [("max"%string, v)]) arm) = arm
      /\ exists m, fst (PUT j (Some [("max"%string, v)]) arm)
                   = HTTPError400 (Str m))
  /\ (jmax (joint j arm) < q \/ q < 0 ->
      PUT j (Some [("min"%string, v)]) arm
      = (Uncaught (AttributeError "ValueError" "format"), arm)).
Proof.
  intros Hv. split; [|split]; intros H; unfold PUT, PUT_keys, PUT_key;
    cbn [attribute negb String.eqb Ascii.eqb Bool.eqb orb];
    rewrite Hv.
  - apply in_limits_false in H. rewrite (goto_rejected _ _ _ H). reflexivity.
  - unfold bind. rewrite (setLimit_max_refused _ _ _ H). cbn.
    split; [reflexivity|]. eexists. reflexivity.
  - unfold bind. rewrite setLimit_min_refused by exact H. reflexivity.
Qed.

Lemma PUT_refused_value_witness :
  PUT Shoulder (Some [("pos"%string, JInt 150)]) homed_arm
  = (HTTPError400 (Str (AngleOutsideLimits 150 "shoulder" 50 140)),
     homed_arm)
  /\ PUT Shoulder (Some [("min"%string, JInt 160)]) homed_arm
     = (Uncaught (AttributeError "ValueError" "format"), homed_arm).
Proof.
  destruct (PUT_refused_value Shoulder (JInt 150) 150 homed_arm eq_refl)
    as (A & _ & _).
  destruct (PUT_refused_value Shoulder (JInt 160) 160 homed_arm eq_refl)
    as (_ & _ & C).
  split; [apply A; right; reflexivity|apply C; left; reflexivity].
Defined.

Lemma PUT_key_only_limits j k v arm :
  only_limits_of j arm (snd (PUT_key j k v arm)).
Proof.
  unfold PUT_key. destruct (negb (attribute k)); [apply only_limits_refl|].
  destruct (number v) as [q|]; [|apply only_limits_refl].
  destruct (String.eqb k "pos"); [|destruct (String.eqb k "min")].
  - pose proof (keeps_only_limits_goto j j q arm) as K.
    destruct (goto j q arm) as [r arm']. exact K.
  - pose proof (keeps_only_limits_setLimit j (Some q) None arm) as K.
    unfold bind. destruct (setLimit j (Some q) None arm) as [[[]|ex] arm'];
      exact K.
  - pose proof (keeps_only_limits_setLimit j None (Some q) arm) as K.
    unfold bind. destruct (setLimit j None (Some q) arm) as [[[]|ex] arm'];
      exact K.
Qed.

Lemma PUT_keys_only_limits j entries :
  forall arm, only_limits_of j arm (snd (PUT_keys j entries arm)).
Proof.
  induction entries as [|[k v] rest IH]; intros arm; cbn [PUT_keys].
  - apply only_limits_refl.
  - pose proof (PUT_key_only_limits j k v arm) as K.
    destruct (PUT_key j k v arm) as [[x|m|ex] arm1]; cbn [snd] in *;
      try exact K.
    specialize (IH arm1).
    destruct (PUT_keys j rest arm1) as [[l|m|ex] arm2]; cbn [snd] in *;
      exact (only_limits_trans _ _ _ _ K IH).
Qed.

(** X26.  Whatever its body and its outcome, a PUT on the service of one
    joint changes nothing of the arm but the servo channel and the two
    limits of that joint. *)
Theorem PUT_frame j json arm :
  only_limits_of j arm (snd (PUT j json arm)).
Proof.
  destruct json as [[|e rest]|]; cbn [PUT snd];
    try apply only_limits_refl.
  apply PUT_keys_only_limits.
Qed.

Lemma PUT_keys_app j pre :
  forall arm l arm1 rest,
    PUT_keys j pre arm = (Returned l, arm1) ->
    PUT_keys j (pre ++ rest) arm
    = match PUT_keys j rest arm1 with
      | (Returned l', arm2) => (Returned (l ++ l'), arm2)
      | r => r
      end.
Proof.
  induction pre as [|[k v] pre IH]; intros arm l arm1 rest H;
    cbn [PUT_keys app] in *.
  - inversion H; subst. destruct (PUT_keys j rest arm1) as [[]]; reflexivity.
  - destruct (PUT_key j k v arm) as [[x|m|ex] arm']; try discriminate.
    destruct (PUT_keys j pre arm') as [[l0|m|ex] arm''] eqn:E;
      try discriminate.
    inversion H; subst. rewrite (IH _ _ _ rest E).
    destruct (PUT_keys j rest arm1) as [[]]; reflexivity.
Qed.

(** X27.  [PUT] does not undo what it has done: when the keys before a key
    that is not 'pos', 'min' or 'max' have been applied, the request
    fails with the 400 error for that key and the arm is as those keys
    left it. *)
Theorem PUT_keeps_earlier_changes j pre k v post arm l arm1 :
  PUT_keys j pre arm = (Returned l, arm1) ->
  attribute k = false ->
  PUT j (Some (pre ++ (k, v) :: post)) arm
  = (HTTPError400 (InvalidAttribute k), arm1).
Proof.
  intros H Hk.
  assert (E : PUT_keys j (pre ++ (k, v) :: post) arm
              = (HTTPError400 (InvalidAttribute k), arm1)).
  { rewrite (PUT_keys_app j pre arm l arm1 _ H). cbn [PUT_keys].
    unfold PUT_key. rewrite Hk. reflexivity. }
  unfold PUT. destruct (pre ++ (k, v) :: post)%list eqn:D; [|exact E].
  destruct pre; discriminate D.
Qed.

Lemma PUT_keeps_earlier_changes_witness :
  fst (PUT Wrist
         (Some [("max"%string, JInt 120); ("speed"%string, JInt 3)])
         homed_arm)
  = HTTPError400 (InvalidAttribute "speed")
  /\ jmax (wrist
             (snd (PUT Wrist
                     (Some [("max"%string, JInt 120);
                            ("speed"%string, JInt 3)])
                     homed_arm)))
     = inject_Z 120.
Proof.
  assert (E : PUT_keys Wrist [("max"%string, JInt 120)] homed_arm
              = (Returned [("max"%string, Some (inject_Z 120))],
                 snd (PUT_keys Wrist [("max"%string, JInt 120)] homed_arm)))
    by reflexivity.
  pose proof (PUT_keeps_earlier_changes Wrist [("max"%string, JInt 120)]
                "speed" (JInt 3) [] homed_arm _ _ E eq_refl) as P.
  cbn [app] in P. rewrite P. split; reflexivity.
Defined.

End JointServiceArm.

(** ** The joint service on the register bus *)
Section JointServiceBus.
Import MeArmControl JointService.

Lemma sends_angles_refl arm : sends_angles arm arm.
Proof.
  repeat split. exists []. split; [symmetry; apply app_nil_r|constructor].
Qed.

Lemma sends_angles_trans a b c :
  sends_angles a b -> sends_angles b c -> sends_angles a c.
Proof.
  intros (A1 & R1 & o1 & T1 & F1) (A2 & R2 & o2 & T2 & F2).
  split; [congruence|]. split; [congruence|].
  exists (o1 ++ o2)%list. split; [rewrite T2, T1, app_assoc; reflexivity|].
  apply Forall_app. split; assumption.
Qed.

Lemma error_check_carries arm : Forall carries_angle (error_check arm).
Proof. repeat constructor. Qed.

Lemma PUT_I2C_key_sends reg k v arm :
  sends_angles arm (snd (PUT_I2C_key reg k v arm)).
Proof.
  unfold PUT_I2C_key.
  destruct (negb (attribute k)); [apply sends_angles_refl|].
  destruct v as [z| | | | |]; try apply sends_angles_refl.
  destruct (negb ((0 <=? z) && (z <=? 180))) eqn:B;
    [apply sends_angles_refl|].
  apply negb_false_iff, andb_true_iff in B as [B0 B1].
  apply Z.leb_le in B0, B1.
  assert (S1 : forall t,
             (t = SetRegister reg z
              \/ exists sub, t = SetRegisterSubValue reg sub z) ->
             sends_angles arm (snd (run t arm))).
  { intros t Ht. rewrite run_eq. cbn [snd].
    split; [reflexivity|]. split; [reflexivity|].
    eexists. split; [reflexivity|].
    apply Forall_app. split; [|apply error_check_carries].
    destruct Ht as [->|[sub ->]]; cbn [transfer];
      repeat constructor; cbn; eauto. }
  destruct (String.eqb k "pos").
  - rewrite joint_eq.
    pose proof (S1 _ (or_introl eq_refl)) as K.
    destruct (run (SetRegister reg z) arm) as [[o|ex] s]; exact K.
  - rewrite jointLimit_eq.
    destruct (String.eqb k "min"); [|destruct (String.eqb k "max")].
    + pose proof (S1 _ (or_intror (ex_intro _ RegSubMin eq_refl))) as K.
      destruct (run (SetRegisterSubValue reg RegSubMin z) arm)
        as [[o|ex] s]; exact K.
    + pose proof (S1 _ (or_intror (ex_intro _ RegSubMax eq_refl))) as K.
      destruct (run (SetRegisterSubValue reg RegSubMax z) arm)
        as [[o|ex] s]; exact K.
    + apply sends_angles_refl.
Qed.

Lemma PUT_I2C_keys_sends reg entries :
  forall arm, sends_angles arm (snd (PUT_I2C_keys reg entries arm)).
Proof.
  induction entries as [|[k v] rest IH]; intros arm; cbn [PUT_I2C_keys].
  - apply sends_angles_refl.
  - pose proof (PUT_I2C_key_sends reg k v arm) as K.
    destruct (PUT_I2C_key reg k v arm) as [[x|m|ex] arm1]; cbn [snd] in *;
      try exact K.
    specialize (IH arm1).
    destruct (PUT_I2C_keys reg rest arm1) as [[l|m|ex] arm2];
      cbn [snd] in *; exact (sends_angles_trans _ _ _ K IH).
Qed.

(** X28.  Whatever its body and its outcome, a PUT on the bus service sends
    the device no value below 0 or above 180: every write it issues
    carries a value between 0 and 180. *)
Theorem PUT_I2C_sends_angles_only reg json arm :
  sends_angles arm (snd (PUT_I2C reg json arm)).
Proof.
  destruct json as [[|e rest]|]; cbn [PUT_I2C snd];
    try apply sends_angles_refl.
  apply PUT_I2C_keys_sends.
Qed.

(** X29.  A value that is not an [int], or an [int] below 0 or above 180, is
    refused with a 400 error before anything is sent on the bus. *)
Theorem PUT_I2C_refused_value reg k v arm :
  attribute k = true ->
  (forall z, v = JInt z -> z < 0 \/ 180 < z) ->
  snd (PUT_I2C reg (Some [(k, v)]) arm) = arm
  /\ fst (PUT_I2C reg (Some [(k, v)]) arm)
     = HTTPError400 (match v with
                     | JInt z => OutOfLimits z k
                     | _ => IntegerExpected k v
                     end).
Proof.
  intros Hk Hv. unfold PUT_I2C, PUT_I2C_keys, PUT_I2C_key. rewrite Hk.
  cbn [negb]. destruct v as [z| | | | |]; try (split; reflexivity).
  assert (B : negb ((0 <=? z) && (z <=? 180)) = true).
  { apply negb_true_iff, andb_false_iff.
    destruct (Hv z eq_refl) as [H|H]; [left|right]; apply Z.leb_gt; exact H. }
  rewrite B. split; reflexivity.
Qed.

Lemma PUT_I2C_refused_value_witness :
  snd (PUT_I2C RegBase (Some [("pos"%string, JInt 181)]) (scripted 42 []))
  = scripted 42 []
  /\ fst (PUT_I2C RegBase (Some [("pos"%string, JInt 181)])
            (scripted 42 []))
     = HTTPError400 (OutOfLimits 181 "pos")
  /\ fst (PUT_I2C RegBase (Some [("min"%string, JFloat (905 # 10))])
            (scripted 42 []))
     = HTTPError400 (IntegerExpected "min" (JFloat (905 # 10))).
Proof.
  destruct (PUT_I2C_refused_value RegBase "pos" (JInt 181) (scripted 42 [])
              eq_refl) as [A B].
  { intros z Hz. inversion Hz; subst z. right. reflexivity. }
  destruct (PUT_I2C_refused_value RegBase "min" (JFloat (905 # 10))
              (scripted 42 []) eq_refl) as [_ C].
  { intros z Hz. discriminate Hz. }
  split; [exact A|]. split; [exact B|exact C].
Defined.

(** X30.  For a position between 0 and 180, the PUT on the bus service
    returns the position it was given when the error register reads 0,
    answers 400 with the code and the text of the table entry when the
    error byte is one of the six flags, and lets the KeyError through
    for any other non-zero byte. *)
Theorem PUT_I2C_pos_outcomes reg z arm :
  0 <= z <= 180 ->
  (remote arm (nread arm) = 0 ->
   fst (PUT_I2C reg (Some [("pos"%string, JInt z)]) arm)
   = Returned [("pos"%string, z)])
  /\ (forall err,
        OpErrors !! remote arm (nread arm) = Some err ->
        fst (PUT_I2C reg (Some [("pos"%string, JInt z)]) arm)
        = HTTPError400 (Str (DeviceError (c err) (e err))))
  /\ (remote arm (nread arm) <> 0 ->
      OpErrors !! remote arm (nread arm) = None ->
      fst (PUT_I2C reg (Some [("pos"%string, JInt z)]) arm)
      = Uncaught (KeyError (remote arm (nread arm)))).
Proof.
  intros [H0 H1].
  assert (B : negb ((0 <=? z) && (z <=? 180)) = false).
  { apply negb_false_iff, andb_true_iff. split; apply Z.leb_le; assumption. }
  assert (E : forall o,
             error_outcome (remote arm (nread arm)) = o ->
             fst (PUT_I2C reg (Some [("pos"%string, JInt z)]) arm)
             = match o with
               | Ok _ => Returned [("pos"%string, z)]
               | Raise (IOError m) => HTTPError400 (Str m)
               | Raise (ValueError m) => HTTPError400 (Str m)
               | Raise ex => Uncaught ex
               end).
  { intros o Ho. unfold PUT_I2C, PUT_I2C_keys, PUT_I2C_key.
    cbn [attribute String.eqb Ascii.eqb Bool.eqb orb negb]. rewrite B.
    rewrite joint_eq, run_eq. unfold error_byte, transfer_reads.
    cbn [Nat.add]. rewrite Ho. destruct o as [[]|[]]; reflexivity. }
  split; [|split].
  - intros Hz. apply (E (Ok tt)). unfold error_outcome. rewrite Hz.
    reflexivity.
  - intros err He. apply (E (Raise (IOError (DeviceError (c err) (e err))))).
    unfold error_outcome. pose proof (OpErrors_nonzero _ _ He) as Hnz.
    apply Z.eqb_neq in Hnz. rewrite Hnz, He. reflexivity.
  - intros Hnz He. apply (E (Raise (KeyError (remote arm (nread arm))))).
    unfold error_outcome. apply Z.eqb_neq in Hnz. rewrite Hnz, He.
    reflexivity.
Qed.

Lemma PUT_I2C_pos_outcomes_witness :
  fst (PUT_I2C RegBase (Some [("pos"%string, JInt 90)]) (scripted 42 [0]))
  = Returned [("pos"%string, 90)]
  /\ fst (PUT_I2C RegBase (Some [("pos"%string, JInt 90)])
            (scripted 42 [4]))
     = HTTPError400
         (Str (DeviceError "ePLimit"
                 "Position to set is out of poistion limits"))
  /\ fst (PUT_I2C RegBase (Some [("pos"%string, JInt 90)])
            (scripted 42 [6]))
     = Uncaught (KeyError 6).
Proof.
  assert (H : 0 <= 90 <= 180) by lia.
  destruct (PUT_I2C_pos_outcomes RegBase 90 (scripted 42 [0]) H)
    as (A & _ & _).
  destruct (PUT_I2C_pos_outcomes RegBase 90 (scripted 42 [4]) H)
    as (_ & B & _).
  destruct (PUT_I2C_pos_outcomes RegBase 90 (scripted 42 [6]) H)
    as (_ & _ & C).
  split; [exact (A eq_refl)|].
  split; [exact (B _ eq_refl)|apply C; [discriminate|reflexivity]].
Defined.

End JointServiceBus.
